(** * Celerity: the query resolver, the shortcut store and their persistence

    A shallow embedding of the parts of the new-tab page that decide what a
    typed query resolves to ([parseQuery] and its helpers in
    [js/components/search.js]), of the command store and its loading from
    [localStorage] (the configuration script), and of the settings dialog's
    create, edit, export and import operations (the modal manager). *)

From Stdlib Require Import List NArith ZArith Bool String Ascii Lia.
Import ListNotations.

Local Open Scope string_scope.
Local Open Scope N_scope.
Local Open Scope list_scope.

(** ** ECMAScript strings

    A string is a sequence of UTF-16 code units. *)

Definition char := N.
Definition jsstring := list char.

(** The string that a literal in Basic Latin denotes. *)
Definition js (s : string) : jsstring :=
  map N_of_ascii (list_ascii_of_string s).
Arguments js s%_string.

Fixpoint jseqb (a b : jsstring) : bool :=
  match a, b with
  | [], [] => true
  | x :: a', y :: b' => N.eqb x y && jseqb a' b'
  | _, _ => false
  end.

Definition between (lo hi c : char) : bool := N.leb lo c && N.leb c hi.

Definition is_digit (c : char) : bool := between 48 57 c.
Definition is_upper (c : char) : bool := between 65 90 c.
Definition is_lower (c : char) : bool := between 97 122 c.
Definition is_letter (c : char) : bool := is_upper c || is_lower c.

(** [\w]: letters, digits and the underscore. *)
Definition is_word (c : char) : bool :=
  is_letter c || is_digit c || N.eqb c 95.

(** LineTerminator: LF, CR, LS, PS. *)
Definition is_line_terminator (c : char) : bool :=
  N.eqb c 10 || N.eqb c 13 || N.eqb c 8232 || N.eqb c 8233.

(** [\s], also what [trim] strips: WhiteSpace and LineTerminator. *)
Definition is_space (c : char) : bool :=
  between 9 13 c || N.eqb c 32 || N.eqb c 160 || N.eqb c 5760
  || between 8192 8202 c || N.eqb c 8232 || N.eqb c 8233 || N.eqb c 8239
  || N.eqb c 8287 || N.eqb c 12288 || N.eqb c 65279.

Fixpoint trimStart (s : jsstring) : jsstring :=
  match s with
  | c :: t => if is_space c then trimStart t else s
  | [] => []
  end.

Definition trimEnd (s : jsstring) : jsstring := rev (trimStart (rev s)).

Definition trim (s : jsstring) : jsstring := trimEnd (trimStart s).

Fixpoint startsWith (s p : jsstring) : bool :=
  match p, s with
  | [], _ => true
  | x :: p', y :: s' => N.eqb x y && startsWith s' p'
  | _ :: _, [] => false
  end.

(** A string is truthy when it is not empty. *)
Definition truthy (s : jsstring) : bool :=
  match s with [] => false | _ => true end.

(** [toLowerCase] of a string whose code units are at most U+00FF: the
    Basic Latin and Latin-1 capitals go to their small letters. The mapping
    of the letters above U+00FF is not modelled: where the page lower-cases
    a text that the user types, the function is a parameter of the model
    ([lowerCase] below), and this definition is used on Basic Latin and
    Latin-1 text only. *)
Definition lower_char (c : char) : char :=
  if is_upper c then (c + 32)
  else if between 192 222 c && negb (N.eqb c 215) then (c + 32)
  else c.

Definition toLowerCase (s : jsstring) : jsstring := map lower_char s.

(** *** Regular expressions

    The patterns of the source are tested against whole strings, so a pattern
    is modelled by the language it denotes and matched with derivatives. *)

Inductive regex : Type :=
| Never
| Blank
| Class (p : char -> bool)
| Then (r s : regex)
| Either (r s : regex)
| Many (r : regex).

Definition Opt (r : regex) : regex := Either Blank r.
Definition Some1 (r : regex) : regex := Then r (Many r).
Definition Lit (c : char) : regex := Class (N.eqb c).
(** A letter of the pattern under the [i] flag. *)
Definition LitI (c : char) : regex := Class (fun x => N.eqb (lower_char x) c && N.ltb x 128).
Definition AnyChar : regex := Class (fun _ => true).

Fixpoint nullable (r : regex) : bool :=
  match r with
  | Never => false
  | Blank => true
  | Class _ => false
  | Then r s => nullable r && nullable s
  | Either r s => nullable r || nullable s
  | Many _ => true
  end.

Fixpoint deriv (c : char) (r : regex) : regex :=
  match r with
  | Never => Never
  | Blank => Never
  | Class p => if p c then Blank else Never
  | Then r s =>
      if nullable r then Either (Then (deriv c r) s) (deriv c s)
      else Then (deriv c r) s
  | Either r s => Either (deriv c r) (deriv c s)
  | Many r => Then (deriv c r) (Many r)
  end.

Fixpoint matches (r : regex) (s : jsstring) : bool :=
  match s with
  | [] => nullable r
  | c :: t => matches (deriv c r) t
  end.

(** The language of a pattern. *)
Inductive lang : regex -> jsstring -> Prop :=
| lang_blank : lang Blank []
| lang_class p c : p c = true -> lang (Class p) [c]
| lang_then r s u v : lang r u -> lang s v -> lang (Then r s) (u ++ v)
| lang_left r s u : lang r u -> lang (Either r s) u
| lang_right r s u : lang s u -> lang (Either r s) u
| lang_many_nil r : lang (Many r) []
| lang_many_cons r u v : lang r u -> lang (Many r) v -> lang (Many r) (u ++ v).

(** *** encodeURIComponent *)

Definition hex_digit (n : N) : char :=
  if N.ltb n 10 then (48 + n) else (55 + n).

Definition percent (byte : N) : jsstring :=
  [37; hex_digit (byte / 16); hex_digit (byte mod 16)].

(** The UTF-8 octets of a code point. *)
Definition utf8 (cp : N) : list N :=
  if N.ltb cp 128 then [cp]
  else if N.ltb cp 2048 then [(192 + cp / 64); (128 + cp mod 64)]
  else if N.ltb cp 65536 then
    [(224 + cp / 4096); (128 + (cp / 64) mod 64); (128 + cp mod 64)]
  else
    [(240 + cp / 262144); (128 + (cp / 4096) mod 64);
     (128 + (cp / 64) mod 64); (128 + cp mod 64)].

(** uriUnescaped: alphanumerics and [-_.!~*'()]. *)
Definition is_unreserved (c : char) : bool :=
  is_letter c || is_digit c
  || existsb (N.eqb c) [45; 95; 46; 33; 126; 42; 39; 40; 41].

Definition is_high_surrogate (c : char) : bool := between 55296 56319 c.
Definition is_low_surrogate (c : char) : bool := between 56320 57343 c.

Definition encode_point (cp : N) : jsstring :=
  if is_unreserved cp then [cp] else flat_map percent (utf8 cp).

(** [None] is the URIError that a lone surrogate raises. *)
Fixpoint encodeURIComponent (s : jsstring) : option jsstring :=
  match s with
  | [] => Some []
  | c :: t =>
      if is_low_surrogate c then None
      else if is_high_surrogate c then
        match t with
        | d :: t' =>
            if is_low_surrogate d then
              option_map
                (app (encode_point ((c - 55296) * 1024 + (d - 56320) + 65536)))
                (encodeURIComponent t')
            else None
        | [] => None
        end
      else option_map (app (encode_point c)) (encodeURIComponent t)
  end.

(** [s.replace(/{}/g, by)]: every occurrence of the placeholder, left to
    right.  The replacement text is taken literally, which is what the source
    does for a text without [$]. *)
Fixpoint replacePlaceholder (s by_ : jsstring) : jsstring :=
  match s with
  | [] => []
  | c :: t =>
      match t with
      | d :: t' =>
          if N.eqb c 123 && N.eqb d 125 then by_ ++ replacePlaceholder t' by_
          else c :: replacePlaceholder t by_
      | [] => [c]
      end
  end.

(** ** Data model *)

(** [searchTemplate] is one template or an array of templates. *)
Inductive template : Type :=
| Single (path : jsstring)
| Multi (paths : list jsstring).

(** An array is truthy even when empty; a string when it is not empty;
    a missing property is not. *)
Definition template_truthy (t : option template) : bool :=
  match t with
  | None => false
  | Some (Single p) => truthy p
  | Some (Multi _) => true
  end.

Module Command.
Record t : Type := mk {
  name : jsstring;
  url : jsstring;
  searchTemplate : option template;
  suggestions : option (list jsstring);
  command : option jsstring
}.
End Command.

(** A [Map] with string keys: entries in insertion order, one per key. *)
Definition Map (V : Type) := list (jsstring * V).

Fixpoint Map_get {V} (m : Map V) (k : jsstring) : option V :=
  match m with
  | [] => None
  | (k', v) :: m' => if jseqb k' k then Some v else Map_get m' k
  end.

Definition Map_has {V} (m : Map V) (k : jsstring) : bool :=
  match Map_get m k with Some _ => true | None => false end.

(** [set] on a present key keeps its position; a new key goes last. *)
Fixpoint Map_set {V} (m : Map V) (k : jsstring) (v : V) : Map V :=
  match m with
  | [] => [(k, v)]
  | (k', v') :: m' =>
      if jseqb k' k then (k', v) :: m' else (k', v') :: Map_set m' k v
  end.

Fixpoint Map_delete {V} (m : Map V) (k : jsstring) : Map V :=
  match m with
  | [] => []
  | (k', v') :: m' =>
      if jseqb k' k then m' else (k', v') :: Map_delete m' k
  end.

Definition Map_clear {V} (m : Map V) : Map V := [].

(** [set] for each entry of a list, in its order. *)
Definition setAll {V} (es : list (jsstring * V)) (m : Map V) : Map V :=
  fold_left (fun m kv => Map_set m (fst kv) (snd kv)) es m.

Module Config.
Record t : Type := mk {
  openLinksInNewTab : bool;
  defaultSearchEngine : jsstring;
  defaultSearchTemplate : option jsstring
}.
End Config.

(** The two delimiters and the suggestion limit of [CONFIG] are never
    assigned after their definition. *)
Definition commandPathDelimiter : char := 47.
Definition commandSearchDelimiter : char := 32.
Definition suggestionLimit : nat := 4.

(** The names that an object literal inherits from [Object.prototype]. *)
Definition Object_prototype : list jsstring :=
  map js
    [ "constructor"; "__defineGetter__"; "__defineSetter__"; "hasOwnProperty";
      "__lookupGetter__"; "__lookupSetter__"; "isPrototypeOf";
      "propertyIsEnumerable"; "toString"; "valueOf"; "__proto__";
      "toLocaleString" ].

(** Own properties of [CONFIG.searchEngineTemplates]: what
    [CONFIG.searchEngineTemplates[engine]] is for every name outside
    [Object_prototype]. Under an inherited name the lookup gives a value that
    is no template and is not modelled. *)
Definition searchEngineTemplates (engine : jsstring) : option jsstring :=
  if jseqb engine (js "google") then Some (js "https://www.google.com/search?q={}")
  else if jseqb engine (js "duckduckgo") then Some (js "https://duckduckgo.com/?q={}")
  else None.

(** What an anchor element reports for an assigned [href]. *)
Module Location.
Record t : Type := mk {
  protocol : jsstring;
  hostname : jsstring;
  pathname : jsstring;
  search : jsstring
}.
End Location.

(** One URL, or the array of URLs of a multi-template search. *)
Inductive target : Type :=
| One (u : jsstring)
| Several (us : list jsstring).

(** The object [parseQuery] returns; a property it does not set is [None]. *)
Module Parsed.
Record t : Type := mk {
  key : option jsstring;
  query : jsstring;
  search : option jsstring;
  splitBy : option jsstring;
  path : option jsstring;
  url : target;
  searchTemplate : option template
}.
End Parsed.

(** A call returns a value or raises the URIError of [encodeURIComponent]. *)
Inductive completion (A : Type) : Type :=
| Return (a : A)
| URIError.
Arguments Return {A} a.
Arguments URIError {A}.

(** ** The search component *)

(** The pattern of [isUrl], under the [i] flag and anchored at both ends:
    an optional [https?://], one or more of [\w-], one or more groups of a dot
    and one or more of [\w-], an optional dot, an optional colon and digits,
    and an optional slash followed by any number of [\S]. *)
Definition word_or_dash : regex := Class (fun c => is_word c || N.eqb c 45).

Definition scheme_pattern : regex :=
  Then (LitI 104) (Then (LitI 116) (Then (LitI 116) (Then (LitI 112)
    (Then (Opt (LitI 115)) (Then (Lit 58) (Then (Lit 47) (Lit 47))))))).

Definition host_pattern : regex :=
  Then (Some1 word_or_dash)
    (Then (Some1 (Then (Lit 46) (Some1 word_or_dash)))
      (Then (Opt (Lit 46))
        (Then (Opt (Then (Lit 58) (Some1 (Class is_digit))))
          (Opt (Then (Lit 47) (Many (Class (fun c => negb (is_space c))))))))).

Definition url_pattern : regex := Then (Opt scheme_pattern) host_pattern.

Definition isUrl (s : jsstring) : bool := matches url_pattern s.

(** [/^[a-zA-Z]+:\/\//i], which is not anchored at the end. *)
Definition protocol_pattern : regex :=
  Then (Some1 (Class is_letter)) (Then (Lit 58) (Then (Lit 47) (Lit 47))).

Definition hasProtocol (s : jsstring) : bool :=
  matches (Then protocol_pattern (Many AnyChar)) s.

(** What the group of any number of [.] captures: the text up to the first
    line terminator. *)
Fixpoint restOfLine (s : jsstring) : jsstring :=
  match s with
  | [] => []
  | c :: t => if is_line_terminator c then [] else c :: restOfLine t
  end.

(** The first two elements of [query.split] on the pattern made of the
    delimiter and that group: the text before the first delimiter, and the
    capture after it, which is undefined when the query has no delimiter. *)
Fixpoint splitAt (splitBy : char) (query : jsstring) : jsstring * option jsstring :=
  match query with
  | [] => ([], None)
  | c :: t =>
      if N.eqb c splitBy then ([], Some (restOfLine t))
      else let (k, r) := splitAt splitBy t in (c :: k, r)
  end.

Section Search.

(** The URL parser of the browser, reached through an anchor element. *)
Variable anchor : jsstring -> Location.t.

Variable CONFIG : Config.t.
Variable COMMANDS : Map Command.t.

Definition splitUrl (url : jsstring) : jsstring * jsstring :=
  let parser := anchor url in
  let baseUrl := Location.protocol parser ++ js "//" ++ Location.hostname parser in
  let rest := Location.pathname parser ++ Location.search parser in
  (baseUrl, rest).

Definition formatSearchUrl (url : jsstring) (searchPath : option template)
    (search : jsstring) : completion target :=
  match searchPath with
  | None => Return (One url)
  | Some (Single []) => Return (One url)
  | Some paths =>
      let baseUrl := fst (splitUrl url) in
      match encodeURIComponent search with
      | None => URIError
      | Some urlQuery =>
          match paths with
          | Multi ps =>
              Return (Several
                (map (fun path => baseUrl ++ replacePlaceholder path urlQuery) ps))
          | Single path =>
              Return (One (baseUrl ++ replacePlaceholder path urlQuery))
          end
      end
  end.

(** [parseQuery] calls itself on a redirection, with no bound of its own:
    [fuel] bounds the depth of the calls and [None] means it ran out. A
    resolution that runs out at every depth is one that returns nothing in the
    browser either, where the calls nest until the stack is exhausted. *)
Fixpoint parseQuery (fuel : nat) (raw : jsstring) : option (completion Parsed.t) :=
  match fuel with
  | O => None
  | S fuel' =>
      let query := trim raw in
      (* CASE 1: direct URL *)
      if isUrl query then
        let url := if hasProtocol query then query else js "https://" ++ query in
        Some (Return (Parsed.mk None query None None None (One url) None))
      else
        (* CASE 2: exact command match; a command has no [key] property *)
        match Map_get COMMANDS query with
        | Some c =>
            match Command.command c with
            | Some ((_ :: _) as command) => parseQuery fuel' command
            | _ => Some (Return
                     (Parsed.mk None query None None None (One (Command.url c)) None))
            end
        | None =>
            (* CASE 3: search command *)
            let (searchKey, rawSearch) := splitAt commandSearchDelimiter query in
            match Map_get COMMANDS searchKey, rawSearch with
            | Some c, Some ((_ :: _) as rawSearch) =>
                let searchTemplate := Command.searchTemplate c in
                let search := trim rawSearch in
                match formatSearchUrl (Command.url c) searchTemplate search with
                | URIError => Some URIError
                | Return url =>
                    Some (Return
                      (Parsed.mk (Some searchKey) query (Some search)
                         (Some [commandSearchDelimiter]) None url searchTemplate))
                end
            | _, _ =>
                (* CASE 4: path command *)
                let (pathKey, path) := splitAt commandPathDelimiter query in
                match Map_get COMMANDS pathKey, path with
                | Some c, Some ((_ :: _) as path) =>
                    let baseUrl := fst (splitUrl (Command.url c)) in
                    let url := baseUrl ++ js "/" ++ path in
                    Some (Return
                      (Parsed.mk (Some pathKey) query None
                         (Some [commandPathDelimiter]) (Some path) (One url) None))
                | _, _ =>
                    (* CASE 5: default search *)
                    let href :=
                      match Config.defaultSearchTemplate CONFIG with
                      | Some s => s
                      | None => js "undefined"
                      end in
                    let (baseUrl, rest) := splitUrl href in
                    match formatSearchUrl baseUrl (Some (Single rest)) query with
                    | URIError => Some URIError
                    | Return url =>
                        Some (Return
                          (Parsed.mk None query (Some query) None None url None))
                    end
                end
            end
        end
  end.

End Search.

(** ** A model of the anchor element

    [href] decomposes an absolute URL [scheme://authority/path?query#fragment]
    the way the URL parser of a browser does on such a URL when the host is
    a name in Basic Latin and the path and the query need no escaping: the
    scheme and the host in lower case, the host without credentials and without
    the port, an empty path read as [/], an empty query as no query. On
    other texts the model is not the parser: a host in brackets, a numeric
    host that the parser rewrites, a relative reference (which a browser
    resolves against the address of the page) or a value that is no string
    are outside it. The properties of the resolution are therefore stated
    for every parser, [anchor]; [href] stands for it where a parser is to be
    evaluated, on URLs of the shape above. *)

Fixpoint span (p : char -> bool) (s : jsstring) : jsstring * jsstring :=
  match s with
  | [] => ([], [])
  | c :: t => if p c then let (a, b) := span p t in (c :: a, b) else ([], s)
  end.

Definition is_scheme_char (c : char) : bool :=
  is_letter c || is_digit c || N.eqb c 43 || N.eqb c 45 || N.eqb c 46.

Definition ends_authority (c : char) : bool :=
  N.eqb c 47 || N.eqb c 63 || N.eqb c 35.

Definition afterCredentials (authority : jsstring) : jsstring :=
  fold_left (fun acc c => if N.eqb c 64 then [] else acc ++ [c]) authority [].

Definition unparseable : Location.t := Location.mk (js ":") [] [] [].

Definition href (s : jsstring) : Location.t :=
  let (scheme, after) := span is_scheme_char s in
  match scheme, after with
  | c0 :: _, 58 :: 47 :: 47 :: more =>
      if is_letter c0 then
        let (authority, tail) := span (fun c => negb (ends_authority c)) more in
        let (host, _) := span (fun c => negb (N.eqb c 58)) (afterCredentials authority) in
        let (path, tail') := span (fun c => negb (N.eqb c 63 || N.eqb c 35)) tail in
        let query :=
          match tail' with
          | 63 :: q => fst (span (fun c => negb (N.eqb c 35)) q)
          | _ => []
          end in
        match host with
        | [] => unparseable
        | _ =>
            Location.mk (toLowerCase scheme ++ js ":") (toLowerCase host)
              (match path with [] => js "/" | _ => path end)
              (match query with [] => [] | _ => 63 :: query end)
        end
      else unparseable
  | _, _ => unparseable
  end.

(** ** The configuration script *)

Definition command (name url : string) (searchTemplate : option string)
    (suggestions : option (list string)) : Command.t :=
  Command.mk (js name) (js url)
    (option_map (fun t => Single (js t)) searchTemplate)
    (option_map (map js) suggestions) None.

(** The built-in command set. *)
Definition COMMANDS : Map Command.t :=
  [ (js "g", command "Gmail" "https://mail.google.com/mail/u/0/#inbox" None None);
    (js "y", command "YouTube" "https://youtube.com/"
               (Some "/results?search_query={}") (Some ["y/feed/subscriptions"]));
    (js "m", command "Metabase"
               "https://metabase.hyperiondev.com/dashboard/157-my-dashboard" None None);
    (js "d", command "Dropbox" "https://www.dropbox.com/work"
               (Some "/search/work?path=%2F&query={}") None);
    (js "a", command "Chat" "https://chat.openai.com/chat" (Some "/?q={}") None);
    (js "n", command "Netflix" "https://www.netflix.com/browse" None None);
    (js "c", command "Cogrammer" "https://hyperiondev.cogrammar.com/" None
               (Some ["c/reviewer/completed/"; "c/reviewer/returned_reviews/"]));
    (js "l", command "Localhost" "http://localhost:3000" None None);
    (js "gh", command "GitHub" "https://github.com/" (Some "/search?q={}") None);
    (js "k", command "Knowledge"
               "https://sites.google.com/hyperiondev.com/hyperiondev-kb/home?authuser=0"
               None None);
    (js "r", command "Reddit" "https://reddit.com" None
               (Some ["r/r/webdev"; "r/r/learnprogramming"; "r/r/gamedev";
                      "r/r/LifeProTips/"]));
    (js "s", command "Spotify" "https://open.spotify.com" (Some "/search/{}") None) ].

(** The [CONFIG] literal, with the search template that [init] derives from
    its default search engine. *)
Definition CONFIG : Config.t :=
  Config.mk true (js "google") (searchEngineTemplates (js "google")).

(** ** Objects and JSON texts *)

(** An array index: a canonical decimal numeral below 2^32 - 1. *)
Definition decimal (s : jsstring) : N :=
  fold_left (fun n c => 10 * n + (c - 48)) s 0.

Definition array_index (k : jsstring) : option N :=
  match k with
  | [] => None
  | c :: t =>
      if forallb is_digit k && (negb (N.eqb c 48) || negb (truthy t))
           && N.ltb (decimal k) 4294967295
      then Some (decimal k) else None
  end.

(** The own properties of an object in the order in which they are
    enumerated: array indices ascending, then the other keys in the order of
    their creation. *)
Definition Object (V : Type) := list (jsstring * V).

Fixpoint insert_index {V} (n : N) (k : jsstring) (v : V) (o : Object V) : Object V :=
  match o with
  | [] => [(k, v)]
  | (k', v') :: o' =>
      match array_index k' with
      | Some n' => if N.ltb n' n then (k', v') :: insert_index n k v o' else (k, v) :: o
      | None => (k, v) :: o
      end
  end.

Definition Object_define {V} (o : Object V) (k : jsstring) (v : V) : Object V :=
  if Map_has o k then Map_set o k v
  else match array_index k with
       | Some n => insert_index n k v o
       | None => o ++ [(k, v)]
       end.

Definition Object_fromEntries {V} (m : Map V) : Object V :=
  fold_left (fun o kv => Object_define o (fst kv) (snd kv)) m [].

Definition Object_entries {V} (o : Object V) : list (jsstring * V) := o.

(** A text handed to [JSON.parse] is represented by what the parser makes of
    it: the document it denotes, or nothing when it is not well formed, as
    the empty string and any other garbled text are. [JSON.stringify] of a
    document made of strings, arrays and objects is a text that denotes the
    document again. The documents represented are those of the shape the
    page writes: texts that parse to something else are not. *)
Inductive text (A : Type) : Type :=
| Json (doc : A)
| Empty
| Garbled.
Arguments Json {A} doc.
Arguments Empty {A}.
Arguments Garbled {A}.

Definition JSON_stringify {A} (doc : A) : text A := Json doc.

Definition JSON_parse {A} (t : text A) : option A :=
  match t with
  | Json doc => Some doc
  | Empty | Garbled => None
  end.

(** Only the empty string is a falsy text. *)
Definition text_truthy {A} (t : text A) : bool :=
  match t with
  | Empty => false
  | Json _ | Garbled => true
  end.

(** ** The state of the page *)

(** The entries of [localStorage] that the page reads and writes. *)
Module Storage.
Record t : Type := mk {
  selectedTheme : option jsstring;
  tabBehavior : option jsstring;
  searchEngine : option jsstring;
  commands : option (text (Object Command.t))
}.
Definition empty : t := mk None None None None.
End Storage.

Module State.
Record t : Type := mk {
  localStorage : Storage.t;
  CONFIG : Config.t;
  COMMANDS : Map Command.t
}.
End State.

Definition setCommands (st : State.t) (m : Map Command.t) : State.t :=
  State.mk (State.localStorage st) (State.CONFIG st) m.

Definition setStorage (st : State.t) (s : Storage.t) : State.t :=
  State.mk s (State.CONFIG st) (State.COMMANDS st).

Definition storeCommands (s : Storage.t) (t : text (Object Command.t)) : Storage.t :=
  Storage.mk (Storage.selectedTheme s) (Storage.tabBehavior s)
    (Storage.searchEngine s) (Some t).

Definition storeTheme (s : Storage.t) (v : jsstring) : Storage.t :=
  Storage.mk (Some v) (Storage.tabBehavior s) (Storage.searchEngine s)
    (Storage.commands s).

Definition storeTabBehavior (s : Storage.t) (v : jsstring) : Storage.t :=
  Storage.mk (Storage.selectedTheme s) (Some v) (Storage.searchEngine s)
    (Storage.commands s).

Definition storeSearchEngine (s : Storage.t) (v : jsstring) : Storage.t :=
  Storage.mk (Storage.selectedTheme s) (Storage.tabBehavior s) (Some v)
    (Storage.commands s).

(** [x || fallback] on what [getItem] returns. *)
Definition orElse (x : option jsstring) (fallback : jsstring) : jsstring :=
  match x with
  | Some ((_ :: _) as v) => v
  | _ => fallback
  end.

(** ** The configuration script, continued *)

(** [CONFIG.init] *)
Definition init (s : Storage.t) : Config.t :=
  let openLinksInNewTab :=
    match Storage.tabBehavior s with
    | Some tabBehavior => jseqb tabBehavior (js "new")
    | None => Config.openLinksInNewTab CONFIG
    end in
  let defaultSearchEngine :=
    match Storage.searchEngine s with
    | Some searchEngine =>
        match searchEngineTemplates searchEngine with
        | Some _ => searchEngine
        | None => Config.defaultSearchEngine CONFIG
        end
    | None => Config.defaultSearchEngine CONFIG
    end in
  Config.mk openLinksInNewTab defaultSearchEngine
    (searchEngineTemplates defaultSearchEngine).

Definition saveCommands (st : State.t) : State.t :=
  let commandsObj := Object_fromEntries (State.COMMANDS st) in
  setStorage st (storeCommands (State.localStorage st) (JSON_stringify commandsObj)).

Definition withSearchTemplate (value : Command.t) (t : string) : Command.t :=
  Command.mk (Command.name value) (Command.url value) (Some (Single (js t)))
    (Command.suggestions value) (Command.command value).

(** One turn of the loop of [loadCommands] over the entries of the parsed
    document: the value is amended in place, so the document that may be
    written back holds the amended value too. *)
Definition loadEntry (acc : Map Command.t * Object Command.t * bool)
    (entry : jsstring * Command.t) : Map Command.t * Object Command.t * bool :=
  let '(COMMANDS, commandsObj, updated) := acc in
  let (key, value) := entry in
  let (value, updated) :=
    if jseqb key (js "d") && negb (template_truthy (Command.searchTemplate value))
    then (withSearchTemplate value "/search/work?path=%2F&query={}", true)
    else (value, updated) in
  let (value, updated) :=
    if jseqb key (js "gh") && negb (template_truthy (Command.searchTemplate value))
    then (withSearchTemplate value "/search?q={}", true)
    else (value, updated) in
  (Map_set COMMANDS key value, Map_set commandsObj key value, updated).

Definition loadCommands (st : State.t) : State.t :=
  match Storage.commands (State.localStorage st) with
  | None => st
  | Some commandsStr =>
      if negb (text_truthy commandsStr) then st
      else
        match JSON_parse commandsStr with
        | None => st
        | Some commandsObj =>
            let '(COMMANDS, commandsObj, updated) :=
              fold_left loadEntry (Object_entries commandsObj)
                (Map_clear (State.COMMANDS st), commandsObj, false) in
            let st := setCommands st COMMANDS in
            if updated then
              setStorage st
                (storeCommands (State.localStorage st) (JSON_stringify commandsObj))
            else st
        end
  end.

(** ** The theme script *)

Definition VALID_THEMES : list jsstring :=
  [js "system"; js "dark"; js "light"; js "void"].

Definition includes (l : list jsstring) (x : jsstring) : bool :=
  existsb (jseqb x) l.

Definition normalizeThemePreference (preference : jsstring) : jsstring :=
  if includes VALID_THEMES preference then preference else js "system".

(** The theme settings at load: the stored preference, normalized, is stored
    again. *)
Definition loadTheme (st : State.t) : State.t :=
  let savedTheme :=
    orElse (Storage.selectedTheme (State.localStorage st)) (js "system") in
  setStorage st
    (storeTheme (State.localStorage st) (normalizeThemePreference savedTheme)).

Definition handleThemeChange (selectedTheme : jsstring) (st : State.t) : State.t :=
  setStorage st
    (storeTheme (State.localStorage st) (normalizeThemePreference selectedTheme)).

Definition handleTabBehaviorChange (selectedBehavior : jsstring) (st : State.t)
    : State.t :=
  State.mk (storeTabBehavior (State.localStorage st) selectedBehavior)
    (Config.mk (jseqb selectedBehavior (js "new"))
       (Config.defaultSearchEngine (State.CONFIG st))
       (Config.defaultSearchTemplate (State.CONFIG st)))
    (State.COMMANDS st).

Definition handleSearchEngineChange (selectedEngine : jsstring) (st : State.t)
    : State.t :=
  State.mk (storeSearchEngine (State.localStorage st) selectedEngine)
    (Config.mk (Config.openLinksInNewTab (State.CONFIG st)) selectedEngine
       (searchEngineTemplates selectedEngine))
    (State.COMMANDS st).

(** The page after its scripts have run on what is stored. *)
Definition pageLoad (s : Storage.t) : State.t :=
  loadCommands (loadTheme (State.mk s (init s) COMMANDS)).

(** ** The search component, continued: suggestions *)

Definition attachSearchPrefix (array : list jsstring) (key splitBy : option jsstring)
    : list jsstring :=
  match splitBy with
  | Some ((_ :: _) as splitBy) =>
      map (fun search => orElse key (js "undefined") ++ splitBy ++ search) array
  | _ => array
  end.

(** The callback of [fetchDuckDuckGoSuggestions], applied to the phrases [res]
    that the autocomplete source answers with: the loop pushes every phrase
    but those identical to [search.toLowerCase()]. [lowerCase] is the
    [toLowerCase] of the engine, whatever it maps the letters to. *)
Definition fetchDuckDuckGoSuggestions (lowerCase : jsstring -> jsstring)
    (search : jsstring) (res : list jsstring) : list jsstring :=
  fold_left
    (fun suggestions phrase =>
       if jseqb phrase (lowerCase search) then suggestions
       else suggestions ++ [phrase])
    res [].

(** [renderSuggestions] shows the first [suggestionLimit] suggestions. *)
Definition renderSuggestions (suggestions : list jsstring) : list jsstring :=
  firstn suggestionLimit suggestions.

(** [onInput] on an input that stays as it is while the source answers: the
    suggestions it renders, none when it closes the dialog. [source] is the
    autocomplete source, [lowerCase] the [toLowerCase] of the engine. *)
Definition onInput (anchor : jsstring -> Location.t)
    (lowerCase : jsstring -> jsstring) (CONFIG : Config.t)
    (COMMANDS : Map Command.t) (source : jsstring -> list jsstring)
    (fuel : nat) (value : jsstring) : option (completion (list jsstring)) :=
  match parseQuery anchor CONFIG COMMANDS fuel value with
  | None => None
  | Some URIError => Some URIError
  | Some (Return oq) =>
      match Parsed.query oq with
      | [] => Some (Return [])
      | _ =>
          let suggestions :=
            match Map_get COMMANDS (Parsed.query oq) with
            | Some c =>
                match Command.suggestions c with Some l => l | None => [] end
            | None => []
            end in
          let suggestions :=
            match Parsed.search oq with
            | Some ((_ :: _) as search) =>
                if Nat.ltb (List.length suggestions) suggestionLimit then
                  let res :=
                    fetchDuckDuckGoSuggestions lowerCase search (source search) in
                  let formatted :=
                    attachSearchPrefix res (Parsed.key oq) (Parsed.splitBy oq) in
                  suggestions ++ formatted
                else suggestions
            | _ => suggestions
            end in
          Some (Return (renderSuggestions suggestions))
      end
  end.

(** ** The modal manager *)

(** The commands of [DEFAULT_SETTINGS]: the built-in set with another search
    template for GitHub. *)
Definition DEFAULT_COMMANDS : Map Command.t :=
  Map_set COMMANDS (js "gh")
    (command "GitHub" "https://github.com/" (Some "/hyperiondev-bootcamps/{}") None).

(** The prefix that both dialogs put before a URL without one. *)
Definition withProtocol (newValue : jsstring) : jsstring :=
  if negb (startsWith newValue (js "http://")) && negb (startsWith newValue (js "https://"))
  then js "https://" ++ newValue
  else newValue.

(** [createNewShortcut] on the values of the three inputs; [shouldOverride]
    is the answer to the confirmation, should it be asked. The result tells
    whether a shortcut was created. *)
Definition createNewShortcut (newKeyInput newNameInput newValueInput : jsstring)
    (shouldOverride : bool) (st : State.t) : bool * State.t :=
  let newValue := trim newValueInput in
  if truthy newKeyInput && truthy newNameInput && truthy newValueInput then
    let newValue := withProtocol newValue in
    if Map_has (State.COMMANDS st) newKeyInput && negb shouldOverride then (false, st)
    else
      let st := setCommands st
        (Map_set (State.COMMANDS st) newKeyInput
           (Command.mk newNameInput newValue None None None)) in
      (true, saveCommands st)
  else (false, st).

(** [saveEditedShortcut] of the item rendered for the entry [key], [value]. *)
Definition saveEditedShortcut (key : jsstring) (value : Command.t)
    (keyInput nameInput valueInput : jsstring) (shouldOverride : bool)
    (st : State.t) : bool * State.t :=
  let newKey := trim keyInput in
  let newName := trim nameInput in
  let newValue := trim valueInput in
  if negb (truthy newKey) || negb (truthy newName) || negb (truthy newValue)
  then (false, st)
  else
    let newValue := withProtocol newValue in
    if negb (jseqb newKey key) && Map_has (State.COMMANDS st) newKey
       && negb shouldOverride
    then (false, st)
    else
      let COMMANDS :=
        if negb (jseqb newKey key) then Map_delete (State.COMMANDS st) key
        else State.COMMANDS st in
      let COMMANDS :=
        Map_set COMMANDS newKey
          (Command.mk newName newValue (Command.searchTemplate value)
             (Command.suggestions value) (Command.command value)) in
      (true, saveCommands (setCommands st COMMANDS)).

Definition deleteShortcut (key : jsstring) (confirmed : bool) (st : State.t)
    : State.t :=
  if confirmed then saveCommands (setCommands st (Map_delete (State.COMMANDS st) key))
  else st.

(** The theme preference as the dialog applies it on reset and on import. *)
Definition applyThemePreference (preference : jsstring) (s : Storage.t) : Storage.t :=
  let normalized :=
    if jseqb preference (js "dark-abyss") then js "void" else preference in
  storeTheme s normalized.

Definition resetSettings (confirmed : bool) (st : State.t) : State.t :=
  if confirmed then
    let s := applyThemePreference (js "system") (State.localStorage st) in
    let s := storeTabBehavior s (js "current") in
    let s := storeSearchEngine s (js "google") in
    let COMMANDS := setAll DEFAULT_COMMANDS (Map_clear (State.COMMANDS st)) in
    saveCommands
      (State.mk s (Config.mk false (js "google") (searchEngineTemplates (js "google")))
         COMMANDS)
  else st.

(** The document that export writes and import reads. *)
Module Settings.
Record t : Type := mk {
  theme : option jsstring;
  tabBehavior : option jsstring;
  searchEngine : option jsstring;
  commands : option (Object Command.t)
}.
End Settings.

(** [exportConfig]: the text offered for download. *)
Definition exportConfig (st : State.t) : text Settings.t :=
  let s := State.localStorage st in
  let settings :=
    Settings.mk
      (Some (orElse (Storage.selectedTheme s) (js "dark")))
      (Some (orElse (Storage.tabBehavior s) (js "current")))
      (Some (orElse (Storage.searchEngine s) (js "google")))
      (Some (Object_fromEntries (State.COMMANDS st))) in
  JSON_stringify settings.

(** [handleImportFile] on the text of the chosen file, once the file has been
    read; [confirmImport] is the answer to the confirmation. A text that does
    not parse ends in the error dialog with nothing applied. *)
Definition handleImportFile (file : option (text Settings.t)) (confirmImport : bool)
    (st : State.t) : State.t :=
  match file with
  | None => st
  | Some result =>
      if negb confirmImport then st
      else
        match JSON_parse result with
        | None => st
        | Some settings =>
            (* theme *)
            let st :=
              match Settings.theme settings with
              | Some ((_ :: _) as theme) =>
                  let validThemes :=
                    [js "system"; js "dark"; js "light"; js "void"; js "dark-abyss"] in
                  let safeTheme :=
                    if includes validThemes theme then theme else js "system" in
                  setStorage st (applyThemePreference safeTheme (State.localStorage st))
              | _ => st
              end in
            (* tab behavior *)
            let st :=
              match Settings.tabBehavior settings with
              | Some ((_ :: _) as tabBehavior) =>
                  State.mk (storeTabBehavior (State.localStorage st) tabBehavior)
                    (Config.mk (jseqb tabBehavior (js "new"))
                       (Config.defaultSearchEngine (State.CONFIG st))
                       (Config.defaultSearchTemplate (State.CONFIG st)))
                    (State.COMMANDS st)
              | _ => st
              end in
            (* search engine *)
            let st :=
              match Settings.searchEngine settings with
              | Some ((_ :: _) as searchEngine) =>
                  State.mk (storeSearchEngine (State.localStorage st) searchEngine)
                    (Config.mk (Config.openLinksInNewTab (State.CONFIG st))
                       searchEngine (searchEngineTemplates searchEngine))
                    (State.COMMANDS st)
              | _ => st
              end in
            (* commands *)
            match Settings.commands settings with
            | Some commands =>
                let COMMANDS :=
                  setAll (Object_entries commands) (Map_clear (State.COMMANDS st)) in
                saveCommands (setCommands st COMMANDS)
            | None => st
            end
        end
  end.

(** The states of the page: a first visit, and what the user's actions and
    reloads make of it. *)
Inductive reachable : State.t -> Prop :=
| reach_first_visit : reachable (pageLoad Storage.empty)
| reach_reload st :
    reachable st -> reachable (pageLoad (State.localStorage st))
| reach_theme st theme :
    reachable st -> reachable (handleThemeChange theme st)
| reach_tab_behavior st behavior :
    reachable st -> In behavior [js "new"; js "current"] ->
    reachable (handleTabBehaviorChange behavior st)
| reach_search_engine st engine :
    reachable st -> In engine [js "google"; js "duckduckgo"] ->
    reachable (handleSearchEngineChange engine st)
| reach_create st k n v answer :
    reachable st -> reachable (snd (createNewShortcut k n v answer st))
| reach_edit st key value k n v answer :
    reachable st -> Map_get (State.COMMANDS st) key = Some value ->
    reachable (snd (saveEditedShortcut key value k n v answer st))
| reach_delete st key answer :
    reachable st -> reachable (deleteShortcut key answer st)
| reach_reset st answer :
    reachable st -> reachable (resetSettings answer st)
| reach_import st file answer :
    reachable st -> reachable (handleImportFile file answer st).

(** What the user can tell of a state: the commands in their order, the
    theme preference, where links open and the search engine. *)
Definition observe (st : State.t)
    : Map Command.t * option jsstring * bool * jsstring * option jsstring :=
  (State.COMMANDS st,
   Storage.selectedTheme (State.localStorage st),
   Config.openLinksInNewTab (State.CONFIG st),
   Config.defaultSearchEngine (State.CONFIG st),
   Config.defaultSearchTemplate (State.CONFIG st)).

(** ** Vocabulary of the statements *)

(** What [loadCommands] makes of one entry of the stored document, and
    whether it amends it. *)
Definition outdated (entry : jsstring * Command.t) : bool :=
  (jseqb (fst entry) (js "d") || jseqb (fst entry) (js "gh"))
  && negb (template_truthy (Command.searchTemplate (snd entry))).

Definition amended (entry : jsstring * Command.t) : jsstring * Command.t :=
  let (key, value) := entry in
  if outdated entry then
    (key, withSearchTemplate value
            (if jseqb key (js "d") then "/search/work?path=%2F&query={}"
             else "/search?q={}"))
  else entry.

(** A property of every code unit a pattern admits holds throughout the
    strings it matches. *)
Fixpoint every_class (P : char -> Prop) (r : regex) : Prop :=
  match r with
  | Class p => forall c, p c = true -> P c
  | Then a b | Either a b => every_class P a /\ every_class P b
  | Many a => every_class P a
  | Never | Blank => True
  end.

(** *** The scheme of an accepted URL

    [hasProtocol] admits any run of letters before [://]; on a string that
    [isUrl] accepts it holds exactly when the string begins with the scheme of
    the pattern, [http://] or [https://] in either case of the letters. *)

Definition startsWithScheme (s : jsstring) : bool :=
  matches (Then scheme_pattern (Many AnyChar)) s.

(** The URL a resolution ends in, when it returns one. *)
Definition resolved (r : option (completion Parsed.t)) : option target :=
  match r with
  | Some (Return p) => Some (Parsed.url p)
  | _ => None
  end.

(** The origin that templates and paths are appended to. *)
Definition origin (anchor : jsstring -> Location.t) (url : jsstring) : jsstring :=
  fst (splitUrl anchor url).

(** A template filled with an encoded text and put behind an origin; one URL
    per template when there are several. *)
Definition filled (base : jsstring) (tpl : template) (enc : jsstring) : target :=
  match tpl with
  | Single path => One (base ++ replacePlaceholder path enc)
  | Multi paths => Several (map (fun path => base ++ replacePlaceholder path enc) paths)
  end.

(** What C2 says, read literally: whenever a known key with a template is
    followed by the search delimiter and a remainder that is not empty, the
    resolved URL is the origin followed by the template filled with the
    encoded, trimmed remainder. *)
Definition search_command_as_claimed : Prop :=
  forall (cmds : Map Command.t) (key rest tpl enc : jsstring) (c : Command.t),
    Map_get cmds key = Some c ->
    Command.searchTemplate c = Some (Single tpl) ->
    rest <> [] ->
    encodeURIComponent (trim rest) = Some enc ->
    exists fuel,
      resolved (parseQuery href CONFIG cmds fuel (key ++ commandSearchDelimiter :: rest))
      = Some (One (origin href (Command.url c) ++ replacePlaceholder tpl enc)).

(** A stored shortcut for the examples. *)
Definition site (name : string) : Command.t :=
  command name "https://site.example/" (Some "/find?q={}") None.

(** What C3 says, read literally: whenever a known key is followed by the
    path delimiter and a remainder that is not empty, the resolved URL is the
    origin, a slash and the remainder as typed. *)
Definition path_command_as_claimed : Prop :=
  forall (cmds : Map Command.t) (key rest : jsstring) (c : Command.t),
    Map_get cmds key = Some c ->
    rest <> [] ->
    exists fuel,
      resolved (parseQuery href CONFIG cmds fuel (key ++ commandPathDelimiter :: rest))
      = Some (One (origin href (Command.url c) ++ js "/" ++ rest)).

(** The redirection that [parseQuery] follows from an input, if it follows
    one: the input is no URL, it is a key, and the command under the key has
    a [command] that is not empty. *)
Definition redirects (cmds : Map Command.t) (raw : jsstring) : option jsstring :=
  if isUrl (trim raw) then None
  else
    match Map_get cmds (trim raw) with
    | Some c =>
        match Command.command c with
        | Some ((_ :: _) as target) => Some target
        | _ => None
        end
    | None => None
    end.

(** What C5 says, read literally: an input that is a key with a redirection
    always resolves, given enough depth. *)
Definition redirection_as_claimed : Prop :=
  forall (cmds : Map Command.t) (raw target : jsstring) (c : Command.t),
    Map_get cmds (trim raw) = Some c ->
    Command.command c = Some target ->
    exists fuel r, parseQuery href CONFIG cmds fuel raw = Some r.

Definition alias (name target : string) : Command.t :=
  Command.mk (js name) (js "https://example.org/") None None (Some (js target)).

Definition video_store : Map Command.t :=
  [ (js "yt", alias "Video" "y");
    (js "y", command "YouTube" "https://youtube.com/"
               (Some "/results?search_query={}") None) ].

Definition old_github : Command.t := command "GitHub" "https://github.com/" None None.

(** What C9 says, read literally: no phrase that equals the search text up
    to the case of its letters is among the suggestions kept. *)
Definition exclusion_as_claimed : Prop :=
  forall (search : jsstring) (res : list jsstring) (item : jsstring),
    In item res ->
    toLowerCase item = toLowerCase search ->
    ~ In item (fetchDuckDuckGoSuggestions toLowerCase search res).

(** The phrases of [res] other than [echo], in their order and as often as
    they occur. *)
Definition without (echo : jsstring) (res : list jsstring) : list jsstring :=
  filter (fun phrase => negb (jseqb phrase echo)) res.

(** What [attachSearchPrefix] puts before each phrase for a parsed query. *)
Definition searchPrefix (oq : Parsed.t) : jsstring :=
  match Parsed.splitBy oq with
  | Some ((_ :: _) as splitBy) => orElse (Parsed.key oq) (js "undefined") ++ splitBy
  | _ => []
  end.

(** A state in which the tab behaviour has been stored, the stored
    preferences and [CONFIG] agree, and no key of the store is an array
    index. *)
Definition settled (st : State.t) : Prop :=
  (exists theme, Storage.selectedTheme (State.localStorage st) = Some theme
                 /\ In theme VALID_THEMES) /\
  (exists behavior, Storage.tabBehavior (State.localStorage st) = Some behavior
                    /\ behavior <> []
                    /\ Config.openLinksInNewTab (State.CONFIG st)
                       = jseqb behavior (js "new")) /\
  Config.defaultSearchEngine (State.CONFIG st)
    = orElse (Storage.searchEngine (State.localStorage st)) (js "google") /\
  Config.defaultSearchTemplate (State.CONFIG st)
    = searchEngineTemplates (Config.defaultSearchEngine (State.CONFIG st)) /\
  NoDup (map fst (State.COMMANDS st)) /\
  (forall k, In k (map fst (State.COMMANDS st)) -> array_index k = None).

(** Two commands that redirect to each other. *)
Definition loop_store : Map Command.t :=
  [ (js "a", alias "There" "b"); (js "b", alias "Back" "a") ].

(** ** The search component, continued: the focus among the suggestions *)

(** Where the focus is in the dialog: in the input, or on the suggestion of
    an index. *)
Inductive focus : Type :=
| Input
| Suggestion (index : nat).

(** [focusNextSuggestion] among [childElementCount] suggestions: the element
    that has the focus afterwards. A child of an index outside the list is
    undefined, and the focus goes to the input then. *)
Definition focusNextSuggestion (childElementCount : nat) (previous : bool)
    (active : focus) : focus :=
  let nextIndex : Z :=
    match active with
    | Suggestion activeIndex =>
        if previous then (Z.of_nat activeIndex - 1)%Z else (Z.of_nat activeIndex + 1)%Z
    | Input => if previous then (Z.of_nat childElementCount - 1)%Z else 0%Z
    end in
  if Z.leb 0 nextIndex && Z.ltb nextIndex (Z.of_nat childElementCount)
  then Suggestion (Z.to_nat nextIndex)
  else Input.

(** The place of the focus on the round through the dialog: the input
    first, then the suggestions in their order. *)
Definition position (active : focus) : nat :=
  match active with
  | Input => 0%nat
  | Suggestion index => S index
  end.

(** A focus that the dialog can have with that many suggestions. *)
Definition focus_within (childElementCount : nat) (active : focus) : Prop :=
  match active with
  | Input => True
  | Suggestion index => (index < childElementCount)%nat
  end.

(** ** The commands component *)

(** [toUpperCase] of a word character. *)
Definition upper_word_char (c : char) : char := if is_lower c then c - 32 else c.

(** [capitaliseWords]: every maximal run of word characters has its first
    character put in upper case and the others in lower case; [inWord] tells
    whether the character before is a word character. *)
Fixpoint capitalise (inWord : bool) (str : jsstring) : jsstring :=
  match str with
  | [] => []
  | c :: t =>
      if is_word c
      then (if inWord then lower_char c else upper_word_char c) :: capitalise true t
      else c :: capitalise false t
  end.

Definition capitaliseWords (str : jsstring) : jsstring := capitalise false str.

(** No capital letter stands behind a word character. *)
Fixpoint capitals_lead (inWord : bool) (str : jsstring) : bool :=
  match str with
  | [] => true
  | c :: t => negb (inWord && is_upper c) && capitals_lead (is_word c) t
  end.

(** No small letter stands at the start of a word. *)
Fixpoint words_capitalised (inWord : bool) (str : jsstring) : bool :=
  match str with
  | [] => true
  | c :: t => negb (negb inWord && is_lower c) && words_capitalised (is_word c) t
  end.

Definition getColumns (innerWidth commandCount : nat) : nat :=
  if Nat.eqb commandCount 5 || Nat.eqb commandCount 2 || Nat.eqb commandCount 1 then 2%nat
  else if Nat.leb 900 innerWidth then 4%nat
  else 2%nat.

Definition shouldAddButton (count columns : nat) : bool :=
  let lastRowItems := Nat.modulo count columns in
  negb (Nat.eqb lastRowItems 0).

(** The commands that [render] shows: those with a name and a URL. *)
Definition available (COMMANDS : Map Command.t) : list (jsstring * Command.t) :=
  filter (fun kv => truthy (Command.name (snd kv)) && truthy (Command.url (snd kv)))
    COMMANDS.

(** One shortcut of the grid: its key, its name as displayed, the address
    of its link and whether the link opens in a new tab. *)
Module Tile.
Record t : Type := mk {
  key : jsstring;
  name : jsstring;
  href : jsstring;
  blank : bool
}.
End Tile.

(** What [render] puts in the grid: the tiles in the order of the commands,
    the number of columns, and the number of cells that the dynamic button
    spans in the last row, when it is added. *)
Definition render (innerWidth : nat) (CONFIG : Config.t) (COMMANDS : Map Command.t)
    : list Tile.t * nat * option nat :=
  let availableCommands := List.length (available COMMANDS) in
  let columns := getColumns innerWidth availableCommands in
  let tiles :=
    map (fun kv =>
           Tile.mk (fst kv) (capitaliseWords (Command.name (snd kv)))
             (Command.url (snd kv)) (Config.openLinksInNewTab CONFIG))
        (available COMMANDS) in
  let count := List.length tiles in
  let button :=
    if shouldAddButton count columns
    then Some (columns - Nat.modulo count columns)%nat
    else None in
  (tiles, columns, button).

(** A map of one entry per key, none of them an array index: its entries
    keep their order when they are made an object. *)
Definition plain {V} (m : Map V) : Prop :=
  NoDup (map fst m) /\ forall k, In k (map fst m) -> array_index k = None.

(** The stored document is the one made of the commands in memory. *)
Definition persisted (st : State.t) : Prop :=
  Storage.commands (State.localStorage st)
  = Some (JSON_stringify (Object_fromEntries (State.COMMANDS st))).

(** What every state of the page satisfies: a valid theme preference is
    stored, the search template in force is the one of the search engine in
    force, and no key has two commands. *)
Definition invariant (st : State.t) : Prop :=
  (exists theme, Storage.selectedTheme (State.localStorage st) = Some theme
                 /\ In theme VALID_THEMES) /\
  Config.defaultSearchTemplate (State.CONFIG st)
    = searchEngineTemplates (Config.defaultSearchEngine (State.CONFIG st)) /\
  NoDup (map fst (State.COMMANDS st)).

(** * Properties *)

(** ** Strings *)

Lemma jseqb_eq (a b : jsstring) : jseqb a b = true <-> a = b.
Proof.
  revert b; induction a as [|x a IH]; intros [|y b]; simpl; split;
    try congruence; try reflexivity.
  - intros H. apply andb_true_iff in H as [Hx Hab].
    apply N.eqb_eq in Hx. apply IH in Hab. congruence.
  - intros H. injection H as -> ->. rewrite N.eqb_refl. simpl. now apply IH.
Qed.

Lemma jseqb_refl (a : jsstring) : jseqb a a = true.
Proof. now apply jseqb_eq. Qed.

Lemma jseqb_neq (a b : jsstring) : jseqb a b = false <-> a <> b.
Proof.
  split.
  - intros H E. apply jseqb_eq in E. congruence.
  - intros H. destruct (jseqb a b) eqn:E; [|reflexivity].
    apply jseqb_eq in E. contradiction.
Qed.

(** Turns a boolean test on code units into linear arithmetic. *)
Ltac char_arith :=
  unfold is_space, is_word, is_letter, is_digit, is_upper, is_lower,
    is_line_terminator, between in *;
  repeat match goal with
  | H : _ = false |- _ => apply not_true_iff_false in H
  | |- _ = false => apply not_true_iff_false; intro
  end;
  repeat rewrite ?andb_true_iff, ?orb_true_iff, ?negb_true_iff,
    ?N.leb_le, ?N.eqb_eq, ?N.ltb_lt in *;
  repeat match goal with
  | H : negb _ = true -> False |- _ => rewrite negb_true_iff in H
  end;
  try lia.

(** ** Patterns: the matcher decides the language *)

Lemma nullable_lang (r : regex) : nullable r = true <-> lang r [].
Proof.
  split.
  - induction r; simpl; intros H; try discriminate.
    + constructor.
    + apply andb_true_iff in H as [H1 H2].
      change (@nil char) with (@nil char ++ []). constructor; auto.
    + apply orb_true_iff in H as [H|H]; [apply lang_left|apply lang_right]; auto.
    + constructor.
  - intros H. remember [] as w eqn:E.
    induction H; simpl; try reflexivity; try discriminate.
    + apply app_eq_nil in E as [-> ->]. rewrite IHlang1, IHlang2; auto.
    + rewrite IHlang; auto.
    + rewrite IHlang; auto using orb_true_r.
Qed.

Lemma deriv_sound (c : char) (r : regex) (s : jsstring) :
  lang (deriv c r) s -> lang r (c :: s).
Proof.
  revert s; induction r; simpl; intros s H.
  - inversion H.
  - inversion H.
  - destruct (p c) eqn:E; inversion H; subst. now constructor.
  - destruct (nullable r1) eqn:N.
    + inversion H as [| | | ? ? ? H' | ? ? ? H' | |]; subst.
      * inversion H'; subst.
        change (c :: u ++ v) with ((c :: u) ++ v). constructor; auto.
      * change (c :: s) with ([] ++ c :: s). constructor; auto.
        now apply nullable_lang.
    + inversion H; subst.
      change (c :: u ++ v) with ((c :: u) ++ v). constructor; auto.
  - inversion H; subst; [apply lang_left|apply lang_right]; auto.
  - inversion H; subst.
    change (c :: u ++ v) with ((c :: u) ++ v). constructor; auto.
Qed.

Lemma deriv_complete (c : char) (r : regex) (s : jsstring) :
  lang r (c :: s) -> lang (deriv c r) s.
Proof.
  intros H. remember (c :: s) as w eqn:E. revert s E.
  induction H; intros s' E; simpl; try discriminate.
  - injection E as -> <-. rewrite H. constructor.
  - destruct u as [|x u'].
    + simpl in E. subst v.
      assert (N : nullable r = true) by now apply nullable_lang.
      rewrite N. apply lang_right. auto.
    + simpl in E. injection E as -> <-.
      destruct (nullable r).
      * apply lang_left. constructor; auto.
      * constructor; auto.
  - apply lang_left; auto.
  - apply lang_right; auto.
  - destruct u as [|x u'].
    + simpl in E. auto.
    + simpl in E. injection E as -> <-. constructor; auto.
Qed.

Lemma matches_lang (r : regex) (s : jsstring) : matches r s = true <-> lang r s.
Proof.
  revert r; induction s as [|c s IH]; intros r; simpl.
  - apply nullable_lang.
  - rewrite IH. split; [apply deriv_sound | apply deriv_complete].
Qed.

Lemma lang_every (P : char -> Prop) (r : regex) (s : jsstring) :
  every_class P r -> lang r s -> Forall P s.
Proof.
  intros E H. induction H; simpl in E.
  - constructor.
  - constructor; auto.
  - destruct E. apply Forall_app; auto.
  - destruct E; auto.
  - destruct E; auto.
  - constructor.
  - apply Forall_app; auto.
Qed.

Lemma lower_char_ascii_space (x : char) :
  is_space x = true -> x < 128 -> lower_char x = x.
Proof.
  intros Hs Hx. unfold lower_char.
  destruct (is_upper x) eqn:U; [char_arith|].
  destruct (between 192 222 x) eqn:B; [char_arith|reflexivity].
Qed.

(** No string that [isUrl] accepts holds a white-space code unit. *)
Lemma isUrl_no_space (s : jsstring) :
  isUrl s = true -> Forall (fun c => is_space c = false) s.
Proof.
  intros H. apply matches_lang in H. revert H. apply lang_every.
  assert (L : forall k, 33 <= k -> every_class (fun c => is_space c = false) (LitI k)).
  { intros k Hk c Hc. apply andb_true_iff in Hc as [E Hc].
    apply N.eqb_eq in E. apply N.ltb_lt in Hc.
    destruct (is_space c) eqn:S; [|reflexivity].
    rewrite (lower_char_ascii_space c S Hc) in E. subst k. char_arith. }
  assert (T : forall k, 33 <= k -> k < 128 ->
            every_class (fun c => is_space c = false) (Lit k)).
  { intros k Hk Hk' c Hc. apply N.eqb_eq in Hc. subst c. char_arith. }
  assert (W : every_class (fun c => is_space c = false) word_or_dash).
  { intros c Hc. char_arith. }
  assert (D : every_class (fun c => is_space c = false) (Class is_digit)).
  { intros c Hc. char_arith. }
  unfold url_pattern, scheme_pattern, host_pattern, Opt, Some1.
  cbn [every_class].
  repeat split; try exact W; try exact D; try (apply L; lia); try (apply T; lia).
  intros c Hc. now apply negb_true_iff in Hc.
Qed.

Lemma isUrl_with_space (a b : jsstring) (c : char) :
  is_space c = true -> isUrl (a ++ c :: b) = false.
Proof.
  intros Hc. destruct (isUrl (a ++ c :: b)) eqn:E; [|reflexivity].
  apply isUrl_no_space in E. apply Forall_app in E as [_ E].
  inversion E; subst. congruence.
Qed.

Lemma lang_any (s : jsstring) : lang (Many AnyChar) s.
Proof.
  induction s as [|c s IH]; [constructor|].
  change (c :: s) with ([c] ++ s). constructor; [now constructor|exact IH].
Qed.

Lemma lang_some1_class (p : char -> bool) (w : jsstring) :
  lang (Some1 (Class p)) w <-> w <> [] /\ Forall (fun c => p c = true) w.
Proof.
  split.
  - intros H. split.
    + inversion H as [| |? ? ? ? H1 H2| | | |]; subst. inversion H1; subst. discriminate.
    + revert H. apply lang_every. simpl. auto.
  - intros [N F]. destruct w as [|c w]; [contradiction|]. clear N.
    inversion F as [|? ? Hc Fw]; subst.
    change (c :: w) with ([c] ++ w). constructor; [now constructor|].
    clear F Hc. induction Fw as [|d w Hd Fw IH]; [constructor|].
    change (d :: w) with ([d] ++ w). constructor; [now constructor|exact IH].
Qed.

Lemma first_break (P : char -> bool) (a b a' b' : jsstring) (x x' : char) :
  Forall (fun c => P c = true) a -> P x = false ->
  Forall (fun c => P c = true) a' -> P x' = false ->
  a ++ x :: b = a' ++ x' :: b' -> x = x'.
Proof.
  intros Fa Hx. revert a'. induction Fa as [|y a Hy Fa IH]; intros a' Fa' Hx' E.
  - destruct a' as [|y' a']; simpl in E; injection E as E1 E2; [exact E1|].
    inversion Fa'; subst. congruence.
  - destruct a' as [|y' a']; simpl in E; injection E as E1 E2.
    + subst. congruence.
    + inversion Fa'; subst. eapply IH; eauto.
Qed.

Ltac invert_lang :=
  repeat match goal with
  | H : lang (Then _ _) _ |- _ => inversion H; subst; clear H
  | H : lang (Class _) _ |- _ => inversion H; subst; clear H
  | H : lang (Either _ _) _ |- _ => inversion H; subst; clear H
  | H : lang Blank _ |- _ => inversion H; subst; clear H
  | H : lang (Opt _) _ |- _ => unfold Opt in H
  | H : lang (Lit _) _ |- _ => unfold Lit in H
  | H : lang (LitI _) _ |- _ => unfold LitI in H
  end.

Lemma LitI_letter (k c : char) :
  97 <= k <= 122 -> N.eqb (lower_char c) k && N.ltb c 128 = true -> is_letter c = true.
Proof.
  intros Hk H. apply andb_true_iff in H as [E L].
  apply N.eqb_eq in E. apply N.ltb_lt in L. unfold lower_char in E.
  destruct (is_upper c) eqn:U; [unfold is_letter; now rewrite U|].
  destruct (between 192 222 c) eqn:B; [char_arith|]. simpl in E. subst k. char_arith.
Qed.

Lemma scheme_is_protocol (u : jsstring) :
  lang scheme_pattern u -> lang protocol_pattern u.
Proof.
  unfold scheme_pattern, protocol_pattern. intros H. invert_lang;
  repeat match goal with
  | H : N.eqb (lower_char _) _ && _ = true |- _ =>
      apply LitI_letter in H; [|lia]
  end; simpl.
  - match goal with
    | |- lang _ (?a :: ?b :: ?c :: ?d :: ?t) =>
        change (a :: b :: c :: d :: t) with ([a; b; c; d] ++ t)
    end.
    constructor.
    + apply lang_some1_class. split; [discriminate|]. repeat constructor; assumption.
    + repeat match goal with
      | |- lang (Then _ _) (?a :: ?t) =>
          change (a :: t) with ([a] ++ t); constructor
      end; now constructor.
  - match goal with
    | |- lang _ (?a :: ?b :: ?c :: ?d :: ?e :: ?t) =>
        change (a :: b :: c :: d :: e :: t) with ([a; b; c; d; e] ++ t)
    end.
    constructor.
    + apply lang_some1_class. split; [discriminate|]. repeat constructor; assumption.
    + repeat match goal with
      | |- lang (Then _ _) (?a :: ?t) =>
          change (a :: t) with ([a] ++ t); constructor
      end; now constructor.
Qed.

Lemma host_has_no_protocol (q : jsstring) :
  lang host_pattern q -> lang (Then protocol_pattern (Many AnyChar)) q -> False.
Proof.
  unfold host_pattern, protocol_pattern. intros Hh Hp.
  inversion Hh as [| |? ? w1 r1 Hw1 Hr1| | | |]; subst; clear Hh.
  inversion Hr1 as [| |? ? dots r2 Hdots _| | | |]; subst; clear Hr1.
  inversion Hdots as [| |? ? d1 d2 Hd1 _| | | |]; subst; clear Hdots.
  inversion Hd1 as [| |? ? dot lab Hdot _| | | |]; subst; clear Hd1.
  inversion Hdot as [|? x Hx| | | | |]; subst; clear Hdot.
  apply N.eqb_eq in Hx. subst x.
  inversion Hp as [| |? ? pr rest Hpr _| | | |]; subst; clear Hp.
  inversion Hpr as [| |? ? letters sep Hl Hsep| | | |]; subst; clear Hpr.
  inversion Hsep as [| |? ? colon sl Hcolon _| | | |]; subst; clear Hsep.
  inversion Hcolon as [|? y Hy| | | | |]; subst; clear Hcolon.
  apply N.eqb_eq in Hy. subst y.
  apply lang_some1_class in Hw1 as [_ Fw]. apply lang_some1_class in Hl as [_ Fl].
  assert (E : 58 = 46); [|discriminate].
  match goal with
  | H : _ ++ _ = _ ++ _ |- _ =>
      repeat rewrite <- app_assoc in H; simpl in H;
      eapply (first_break (fun c => is_word c || N.eqb c 45)); [| | | |exact H]
  end; try reflexivity; try assumption.
  eapply Forall_impl; [|exact Fl]. simpl. intros c Hc.
  unfold is_word. now rewrite Hc.
Qed.

Lemma isUrl_hasProtocol (q : jsstring) :
  isUrl q = true -> hasProtocol q = startsWithScheme q.
Proof.
  intros U. unfold hasProtocol, startsWithScheme.
  destruct (matches (Then scheme_pattern (Many AnyChar)) q) eqn:S.
  - apply matches_lang in S. apply matches_lang.
    inversion S; subst. constructor; [now apply scheme_is_protocol|assumption].
  - destruct (matches (Then protocol_pattern (Many AnyChar)) q) eqn:P; [|reflexivity].
    exfalso. apply matches_lang in P. apply matches_lang in U.
    unfold isUrl, url_pattern in U.
    inversion U as [| |? ? u v Hu Hv| | | |]; subst; clear U.
    inversion Hu as [| | |? ? ? Hb|? ? ? Hs| |]; subst; clear Hu.
    + inversion Hb; subst. simpl in P. eapply host_has_no_protocol; eauto.
    + assert (matches (Then scheme_pattern (Many AnyChar)) (u ++ v) = true); [|congruence].
      apply matches_lang. constructor; [assumption|apply lang_any].
Qed.

(** ** Splitting at the first delimiter *)

Lemma splitAt_first (d : char) (key rest : jsstring) :
  ~ In d key ->
  splitAt d (key ++ d :: rest) = (key, Some (restOfLine rest)).
Proof.
  induction key as [|c key IH]; simpl; intros H.
  - now rewrite N.eqb_refl.
  - destruct (N.eqb c d) eqn:E.
    + apply N.eqb_eq in E. exfalso. apply H. now left.
    + rewrite IH; [reflexivity|]. intros F. apply H. now right.
Qed.

Lemma splitAt_none (d : char) (s : jsstring) :
  ~ In d s -> splitAt d s = (s, None).
Proof.
  induction s as [|c s IH]; simpl; intros H; [reflexivity|].
  destruct (N.eqb c d) eqn:E.
  - apply N.eqb_eq in E. exfalso. apply H. now left.
  - rewrite IH; [reflexivity|]. intros F. apply H. now right.
Qed.

(** ** The resolver *)

(** C1. A trimmed input that [isUrl] accepts resolves to itself when it
    begins with the scheme and to itself behind [https://] when it does not,
    whatever the store and the configuration hold: neither a shortcut of the
    same spelling nor any later case is consulted. *)
Theorem direct_url_first (anchor : jsstring -> Location.t) (cfg : Config.t)
    (cmds : Map Command.t) (fuel : nat) (raw : jsstring) :
  isUrl (trim raw) = true ->
  parseQuery anchor cfg cmds (S fuel) raw =
    Some (Return (Parsed.mk None (trim raw) None None None
      (One (if startsWithScheme (trim raw) then trim raw
            else js "https://" ++ trim raw)) None)).
Proof.
  intros H. cbn [parseQuery]. rewrite H. now rewrite (isUrl_hasProtocol _ H).
Qed.

Lemma direct_url_first_witness :
  parseQuery href CONFIG [(js "example.com", command "Shadowed" "https://youtube.com/" None None)]
    1 (js " example.com ")
  = Some (Return (Parsed.mk None (js "example.com") None None None
      (One (js "https://example.com")) None)).
Proof.
  exact (direct_url_first href CONFIG
    [(js "example.com", command "Shadowed" "https://youtube.com/" None None)]
    0 (js " example.com ") eq_refl).
Defined.

(** The resolutions that the documentation of the page gives as examples,
    on the built-in commands. *)
Example resolve_full_url :
  resolved (parseQuery href CONFIG COMMANDS 1 (js "https://example.com/x"))
  = Some (One (js "https://example.com/x")).
Proof. reflexivity. Qed.

Example resolve_shortcut :
  resolved (parseQuery href CONFIG COMMANDS 1 (js "g"))
  = Some (One (js "https://mail.google.com/mail/u/0/#inbox")).
Proof. reflexivity. Qed.

Example resolve_deep_path :
  resolved (parseQuery href CONFIG COMMANDS 1 (js "r/r/webdev"))
  = Some (One (js "https://reddit.com/r/webdev")).
Proof. reflexivity. Qed.

Example resolve_default_search :
  resolved (parseQuery href CONFIG COMMANDS 1 (js "hello world"))
  = Some (One (js "https://www.google.com/search?q=hello%20world")).
Proof. reflexivity. Qed.

(** C2, counterexample. With the built-in commands, [y] followed by the
    delimiter and a remainder of one space is trimmed to [y], an exact match:
    the resolution is the bare YouTube address, not the search address with
    an empty query. And once [y cats] is itself a key, it is that shortcut
    which the input [y cats] resolves to, not a search for [cats]. *)
Lemma search_command_shadowed :
  resolved (parseQuery href CONFIG COMMANDS 1 (js "y" ++ commandSearchDelimiter :: js " "))
  = Some (One (js "https://youtube.com/")) /\
  resolved
    (parseQuery href CONFIG
       (Map_set COMMANDS (js "y cats") (command "Cats" "https://cats.example/" None None))
       1 (js "y" ++ commandSearchDelimiter :: js "cats"))
  = Some (One (js "https://cats.example/")) /\
  ~ search_command_as_claimed.
Proof.
  split; [reflexivity|]. split; [reflexivity|]. intros H.
  specialize (H COMMANDS (js "y") (js " ") (js "/results?search_query={}") []
                (command "YouTube" "https://youtube.com/"
                   (Some "/results?search_query={}") (Some ["y/feed/subscriptions"]))
                eq_refl eq_refl).
  assert (N : js " " <> []) by discriminate.
  destruct (H N eq_refl) as [[|fuel] E]; vm_compute in E; discriminate.
Qed.

(** Each further condition of the amended statement is one the code imposes:
    a key that holds the delimiter is not what the split finds, the remainder
    ends at a line terminator, and a lone surrogate cannot be encoded. *)
Lemma search_command_limits :
  resolved (parseQuery href CONFIG [(js "a b", site "Spaced")] 1 (js "a b c"))
  = Some (One (js "https://www.google.com/search?q=a%20b%20c")) /\
  resolved (parseQuery href CONFIG COMMANDS 1 (js "y a" ++ 10 :: js "b"))
  = Some (One (js "https://youtube.com/results?search_query=a")) /\
  parseQuery href CONFIG COMMANDS 1 (js "y " ++ [55357]) = Some URIError.
Proof. repeat split. Qed.

(** C2, amended. Let the trimmed input be no key of the store, and let its
    first search delimiter split it into a known key with a search template
    (a string that is not empty, or an array) and a remainder whose first line
    is not empty. Then the resolved URL is the origin of the command's URL
    followed by the template in which every placeholder is replaced by the
    percent-encoded, trimmed first line of the remainder, one such URL per
    template of an array, whenever that text can be encoded. *)
Theorem search_command_url (anchor : jsstring -> Location.t) (cfg : Config.t)
    (cmds : Map Command.t) (fuel : nat) (raw key rest enc : jsstring)
    (tpl : template) (c : Command.t) :
  trim raw = key ++ commandSearchDelimiter :: rest ->
  ~ In commandSearchDelimiter key ->
  Map_get cmds (trim raw) = None ->
  Map_get cmds key = Some c ->
  Command.searchTemplate c = Some tpl ->
  template_truthy (Some tpl) = true ->
  restOfLine rest <> [] ->
  encodeURIComponent (trim (restOfLine rest)) = Some enc ->
  parseQuery anchor cfg cmds (S fuel) raw =
    Some (Return (Parsed.mk (Some key) (trim raw) (Some (trim (restOfLine rest)))
      (Some [commandSearchDelimiter]) None
      (filled (origin anchor (Command.url c)) tpl enc)
      (Some tpl))).
Proof.
  intros Hq Hkey Hexact Hget Htpl Hne Hrest Henc.
  cbn [parseQuery]. rewrite Hq in Hexact |- *. rewrite Hexact.
  rewrite (isUrl_with_space key rest commandSearchDelimiter eq_refl).
  rewrite (splitAt_first _ _ _ Hkey), Hget.
  destruct (restOfLine rest) as [|x l] eqn:E; [contradiction|].
  rewrite Htpl. unfold formatSearchUrl.
  destruct tpl as [[|t0 tpl']|ps]; [discriminate| |]; rewrite Henc; reflexivity.
Qed.

Lemma search_command_url_witness :
  parseQuery href CONFIG COMMANDS 1 (js "y cats") =
    Some (Return (Parsed.mk (Some (js "y")) (js "y cats") (Some (js "cats"))
      (Some (js " ")) None
      (One (js "https://youtube.com/results?search_query=cats"))
      (Some (Single (js "/results?search_query={}"))))).
Proof.
  refine (search_command_url href CONFIG COMMANDS 0 (js "y cats") (js "y") (js "cats")
            (js "cats") (Single (js "/results?search_query={}"))
            (command "YouTube" "https://youtube.com/"
               (Some "/results?search_query={}") (Some ["y/feed/subscriptions"]))
            eq_refl _ eq_refl eq_refl eq_refl eq_refl _ eq_refl).
  - vm_compute. intros [H|[]]. discriminate.
  - discriminate.
Defined.

(** C3, counterexample. A shortcut stored under the key [a.b] is never
    reached by [a.b/x]: the input is accepted as a URL first and resolves to
    [https://a.b/x], not to a path under the shortcut's own address. *)
Lemma path_command_shadowed_by_url :
  resolved
    (parseQuery href CONFIG [(js "a.b", command "Video" "https://youtube.com/" None None)]
       1 (js "a.b" ++ commandPathDelimiter :: js "x"))
  = Some (One (js "https://a.b/x")) /\
  ~ path_command_as_claimed.
Proof.
  split; [reflexivity|]. intros H.
  specialize (H [(js "a.b", command "Video" "https://youtube.com/" None None)]
                (js "a.b") (js "x")
                (command "Video" "https://youtube.com/" None None) eq_refl).
  assert (N : js "x" <> []) by discriminate.
  destruct (H N) as [[|fuel] E]; vm_compute in E; discriminate.
Qed.

(** Each further condition of the amended statement is one the code imposes:
    an input that is itself a key resolves to that key, a key before the first
    search delimiter makes the input a search, a key that holds the path
    delimiter is not what the split finds, and the remainder ends at a line
    terminator. *)
Lemma path_command_limits :
  resolved (parseQuery href CONFIG (Map_set COMMANDS (js "y/feed") (site "Feed"))
              1 (js "y/feed"))
  = Some (One (js "https://site.example/")) /\
  resolved (parseQuery href CONFIG (Map_set COMMANDS (js "y/a") (site "Slashed"))
              1 (js "y/a b"))
  = Some (One (js "https://site.example/find?q=b")) /\
  resolved (parseQuery href CONFIG [(js "a/b", site "Slashed")] 1 (js "a/b/c"))
  = Some (One (js "https://www.google.com/search?q=a%2Fb%2Fc")) /\
  resolved (parseQuery href CONFIG COMMANDS 1 (js "y/a" ++ 10 :: js "b"))
  = Some (One (js "https://youtube.com/a")).
Proof. repeat split. Qed.

(** C3, amended. Let the trimmed input be no URL and no key of the store,
    let the text before its first search delimiter be no key either, and let
    its first path delimiter split it into a known key and a remainder whose
    first line is not empty. Then the resolved URL is the origin of the
    command's URL, a slash, and that first line of the remainder, unencoded
    and with its own slashes. *)
Theorem path_command_url (anchor : jsstring -> Location.t) (cfg : Config.t)
    (cmds : Map Command.t) (fuel : nat) (raw key rest : jsstring) (c : Command.t) :
  trim raw = key ++ commandPathDelimiter :: rest ->
  ~ In commandPathDelimiter key ->
  isUrl (trim raw) = false ->
  Map_get cmds (trim raw) = None ->
  Map_get cmds (fst (splitAt commandSearchDelimiter (trim raw))) = None ->
  Map_get cmds key = Some c ->
  restOfLine rest <> [] ->
  parseQuery anchor cfg cmds (S fuel) raw =
    Some (Return (Parsed.mk (Some key) (trim raw) None
      (Some [commandPathDelimiter]) (Some (restOfLine rest))
      (One (origin anchor (Command.url c) ++ js "/" ++ restOfLine rest)) None)).
Proof.
  intros Hq Hkey Hurl Hexact Hsearch Hget Hrest.
  cbn [parseQuery]. rewrite Hurl, Hexact.
  destruct (splitAt commandSearchDelimiter (trim raw)) as [searchKey rawSearch].
  simpl in Hsearch. rewrite Hsearch.
  rewrite Hq at 1. rewrite (splitAt_first _ _ _ Hkey), Hget.
  destruct (restOfLine rest) as [|x l] eqn:E; [contradiction|].
  reflexivity.
Qed.

Lemma path_command_url_witness :
  parseQuery href CONFIG COMMANDS 1 (js "y/feed/subscriptions") =
    Some (Return (Parsed.mk (Some (js "y")) (js "y/feed/subscriptions") None
      (Some (js "/")) (Some (js "feed/subscriptions"))
      (One (js "https://youtube.com/feed/subscriptions")) None)).
Proof.
  refine (path_command_url href CONFIG COMMANDS 0 (js "y/feed/subscriptions")
            (js "y") (js "feed/subscriptions")
            (command "YouTube" "https://youtube.com/"
               (Some "/results?search_query={}") (Some ["y/feed/subscriptions"]))
            eq_refl _ eq_refl eq_refl eq_refl eq_refl _).
  - vm_compute. intros [H|[]]. discriminate.
  - discriminate.
Defined.

(** C4. The origin is put together from the protocol and the host name of
    the anchor, and the host name leaves the port out: the built-in
    [Localhost] shortcut, stored as [http://localhost:3000], sends the path
    command [l/api] to [http://localhost/api]. *)
Theorem path_command_drops_port :
  origin href (js "http://localhost:3000") = js "http://localhost" /\
  resolved (parseQuery href CONFIG COMMANDS 1 (js "l/api"))
  = Some (One (js "http://localhost/api")).
Proof. split; reflexivity. Qed.

(** A command that redirects to its own key is never left. *)
Lemma self_alias_never_resolves (fuel : nat) :
  parseQuery href CONFIG [(js "a", alias "Loop" "a")] fuel (js "a") = None.
Proof.
  induction fuel as [|fuel IH]; [reflexivity|].
  cbn [parseQuery]. exact IH.
Qed.

(** C5, counterexample. In a store whose only command redirects to its own
    key, resolving that key returns at no depth of recursion. *)
Lemma redirection_cycle_diverges :
  (forall fuel, parseQuery href CONFIG [(js "a", alias "Loop" "a")] fuel (js "a") = None) /\
  ~ redirection_as_claimed.
Proof.
  split; [apply self_alias_never_resolves|]. intros H.
  destruct (H [(js "a", alias "Loop" "a")] (js "a") (js "a") (alias "Loop" "a")
              eq_refl eq_refl) as (fuel & r & E).
  rewrite self_alias_never_resolves in E. discriminate.
Qed.

(** A redirection costs one level of recursion and nothing else. *)
Lemma parseQuery_redirect (anchor : jsstring -> Location.t) (cfg : Config.t)
    (cmds : Map Command.t) (fuel : nat) (raw target : jsstring) :
  redirects cmds raw = Some target ->
  parseQuery anchor cfg cmds (S fuel) raw = parseQuery anchor cfg cmds fuel target.
Proof.
  unfold redirects. cbn [parseQuery].
  destruct (isUrl (trim raw)); [discriminate|].
  destruct (Map_get cmds (trim raw)) as [c|]; [|discriminate].
  destruct (Command.command c) as [[|x t]|]; try discriminate.
  now intros [= <-].
Qed.

(** Redirections that never end are never left: if every input of a set is
    redirected to an input of the set, no depth of recursion is enough for
    any of them. *)
Lemma endless_redirection_diverges (anchor : jsstring -> Location.t)
    (cfg : Config.t) (cmds : Map Command.t) (P : jsstring -> Prop) :
  (forall raw, P raw -> exists target, redirects cmds raw = Some target /\ P target) ->
  forall fuel raw, P raw -> parseQuery anchor cfg cmds fuel raw = None.
Proof.
  intros Closed fuel. induction fuel as [|fuel IH]; intros raw HP; [reflexivity|].
  destruct (Closed raw HP) as (target & R & HT).
  rewrite (parseQuery_redirect anchor cfg cmds fuel raw target R). now apply IH.
Qed.

(** The result of a resolution does not depend on the depth allowed, once
    that is enough. *)
Lemma parseQuery_more_fuel (anchor : jsstring -> Location.t) (cfg : Config.t)
    (cmds : Map Command.t) (n m : nat) (raw : jsstring) (r : completion Parsed.t) :
  (n <= m)%nat ->
  parseQuery anchor cfg cmds n raw = Some r ->
  parseQuery anchor cfg cmds m raw = Some r.
Proof.
  revert m raw. induction n as [|n IH]; intros m raw Hle; [discriminate|].
  destruct m as [|m]; [lia|].
  cbn [parseQuery].
  destruct (isUrl (trim raw)); [trivial|].
  destruct (Map_get cmds (trim raw)) as [c|]; [|trivial].
  destruct (Command.command c) as [[|x t]|]; trivial.
  apply IH. lia.
Qed.

(** C5, amended. When the redirections of the store are well founded, that
    is, when some rank of the keys decreases from every redirecting key to
    the trimmed target it redirects to, every input resolves: the recursion
    returns at every depth above the rank of the trimmed input. *)
Theorem redirection_terminates (anchor : jsstring -> Location.t) (cfg : Config.t)
    (cmds : Map Command.t) (rank : jsstring -> nat) :
  (forall k c target,
      Map_get cmds k = Some c -> Command.command c = Some target ->
      target <> [] -> (rank (trim target) < rank k)%nat) ->
  forall (raw : jsstring) (fuel : nat),
    (rank (trim raw) < fuel)%nat ->
    exists r, parseQuery anchor cfg cmds fuel raw = Some r.
Proof.
  intros Hrank raw fuel. revert raw.
  induction fuel as [|fuel IH]; intros raw Hlt; [lia|].
  cbn [parseQuery].
  destruct (isUrl (trim raw)); [eauto|].
  destruct (Map_get cmds (trim raw)) as [c|] eqn:G.
  - destruct (Command.command c) as [[|x t]|] eqn:C; [eauto| |eauto].
    apply IH.
    assert (rank (trim (x :: t)) < rank (trim raw))%nat
      by (eapply Hrank; eauto; discriminate).
    lia.
  - destruct (splitAt commandSearchDelimiter (trim raw)) as [searchKey rawSearch].
    destruct (Map_get cmds searchKey) as [c|];
      [destruct rawSearch as [[|x t]|];
       [|destruct (formatSearchUrl _ _ _ _); eauto|]|];
    destruct (splitAt commandPathDelimiter (trim raw)) as [pathKey path];
    (destruct (Map_get cmds pathKey) as [c'|];
      [destruct path as [[|y p]|]; [|eauto|]|]);
    destruct (splitUrl _ _); destruct (formatSearchUrl _ _ _ _); eauto.
Qed.

Lemma redirection_terminates_witness :
  exists r, parseQuery href CONFIG video_store 2 (js "yt") = Some r.
Proof.
  apply (redirection_terminates href CONFIG video_store
           (fun k => if jseqb (js "yt") k then 1%nat else 0%nat)).
  - intros k c target G C N. unfold video_store in G. cbn [Map_get] in G.
    destruct (jseqb (js "yt") k) eqn:E.
    + injection G as <-. injection C as <-. vm_compute. lia.
    + destruct (jseqb (js "y") k); [|discriminate G].
      injection G as <-. discriminate C.
  - vm_compute. lia.
Defined.

(** ** Maps and objects *)

Lemma Map_get_set_same {V} (m : Map V) (k : jsstring) (v : V) :
  Map_get (Map_set m k v) k = Some v.
Proof.
  induction m as [|[k' v'] m IH]; simpl.
  - now rewrite jseqb_refl.
  - destruct (jseqb k' k) eqn:E; simpl; rewrite E; [reflexivity|exact IH].
Qed.

Lemma Map_get_set_other {V} (m : Map V) (k k' : jsstring) (v : V) :
  k <> k' -> Map_get (Map_set m k v) k' = Map_get m k'.
Proof.
  intros N. induction m as [|[k0 v0] m IH]; simpl.
  - apply jseqb_neq in N. now rewrite N.
  - destruct (jseqb k0 k) eqn:E; simpl.
    + apply jseqb_eq in E. subst k0. apply jseqb_neq in N. now rewrite N.
    + destruct (jseqb k0 k'); [reflexivity|exact IH].
Qed.

Lemma Map_get_none {V} (m : Map V) (k : jsstring) :
  Map_get m k = None <-> ~ In k (map fst m).
Proof.
  induction m as [|[k' v'] m IH]; simpl.
  - tauto.
  - destruct (jseqb k' k) eqn:E.
    + apply jseqb_eq in E. split; [discriminate|]. intros H. exfalso. auto.
    + apply jseqb_neq in E. rewrite IH. tauto.
Qed.

Lemma Map_set_keys {V} (m : Map V) (k : jsstring) (v : V) :
  In k (map fst m) -> map fst (Map_set m k v) = map fst m.
Proof.
  induction m as [|[k' v'] m IH]; simpl; [tauto|].
  intros H. destruct (jseqb k' k) eqn:E; [reflexivity|]. simpl.
  apply jseqb_neq in E. f_equal. apply IH. destruct H; [contradiction|assumption].
Qed.

Lemma Map_set_new {V} (m : Map V) (k : jsstring) (v : V) :
  ~ In k (map fst m) -> Map_set m k v = m ++ [(k, v)].
Proof.
  induction m as [|[k' v'] m IH]; simpl; intros H; [reflexivity|].
  destruct (jseqb k' k) eqn:E.
  - apply jseqb_eq in E. exfalso. auto.
  - f_equal. apply IH. tauto.
Qed.

Lemma setAll_fresh {V} (es : list (jsstring * V)) (m : Map V) :
  NoDup (map fst es) ->
  (forall k, In k (map fst es) -> ~ In k (map fst m)) ->
  setAll es m = m ++ es.
Proof.
  revert m. induction es as [|[k v] es IH]; intros m ND D; simpl.
  - now rewrite app_nil_r.
  - inversion ND as [|? ? Hk ND']; subst. unfold setAll in *. simpl.
    rewrite Map_set_new by (apply D; now left).
    rewrite IH; [now rewrite <- app_assoc|assumption|].
    intros k' Hk' F. rewrite map_app, in_app_iff in F. simpl in F.
    destruct F as [F|[F|[]]].
    + apply (D k'); [now right|assumption].
    + subst k'. contradiction.
Qed.

Lemma setAll_empty {V} (es : list (jsstring * V)) :
  NoDup (map fst es) -> setAll es [] = es.
Proof.
  intros ND. rewrite setAll_fresh; auto.
Qed.

Lemma Map_get_in {V} (m : Map V) (k : jsstring) (v : V) :
  NoDup (map fst m) -> In (k, v) m -> Map_get m k = Some v.
Proof.
  induction m as [|[k' v'] m IH]; simpl; intros ND H; [contradiction|].
  inversion ND as [|? ? Hk ND']; subst.
  destruct H as [H|H].
  - injection H as -> ->. now rewrite jseqb_refl.
  - destruct (jseqb k' k) eqn:E; [|auto].
    apply jseqb_eq in E. subst k'. exfalso. apply Hk.
    change k with (fst (k, v)). now apply in_map.
Qed.

Lemma setAll_cons {V} (es : list (jsstring * V)) (m : Map V) (k : jsstring) (v : V) :
  ~ In k (map fst es) -> setAll es ((k, v) :: m) = (k, v) :: setAll es m.
Proof.
  revert m v. induction es as [|[k' v'] es IH]; intros m v H; [reflexivity|].
  unfold setAll in *. simpl in *.
  destruct (jseqb k k') eqn:E.
  - apply jseqb_eq in E. exfalso. auto.
  - apply IH. tauto.
Qed.

(** Overwriting every value of a duplicate-free map, key by key. *)
Lemma setAll_in_place {V} (f : jsstring * V -> jsstring * V) (m : Map V) :
  (forall kv, fst (f kv) = fst kv) ->
  NoDup (map fst m) -> setAll (map f m) m = map f m.
Proof.
  intros Hf. induction m as [|[k v] m IH]; intros ND; [reflexivity|].
  inversion ND as [|? ? Hk ND']; subst.
  unfold setAll in *. simpl.
  pose proof (Hf (k, v)) as Hkv. simpl in Hkv.
  destruct (f (k, v)) as [k1 v1] eqn:F. simpl in *. subst k1.
  rewrite jseqb_refl.
  change (fold_left (fun m0 kv => Map_set m0 (fst kv) (snd kv)) (map f m) ((k, v1) :: m))
    with (setAll (map f m) ((k, v1) :: m)).
  rewrite setAll_cons.
  - f_equal. now apply IH.
  - rewrite map_map. rewrite (map_ext _ fst) by (intros; apply Hf). exact Hk.
Qed.

(** ** Loading the stored commands *)

Lemma amended_key (entry : jsstring * Command.t) : fst (amended entry) = fst entry.
Proof.
  destruct entry as [k v]. unfold amended. now destruct (outdated (k, v)).
Qed.

Lemma loadEntry_amended (m : Map Command.t) (o : Object Command.t) (u : bool)
    (entry : jsstring * Command.t) :
  loadEntry (m, o, u) entry =
    (Map_set m (fst (amended entry)) (snd (amended entry)),
     Map_set o (fst (amended entry)) (snd (amended entry)),
     u || outdated entry).
Proof.
  destruct entry as [k v]. unfold loadEntry, amended, outdated. simpl.
  destruct (jseqb k (js "d")) eqn:D.
  - apply jseqb_eq in D. subst k.
    destruct (template_truthy (Command.searchTemplate v)); simpl;
      now rewrite ?orb_true_r, ?orb_false_r.
  - simpl. destruct (jseqb k (js "gh")); simpl;
      [destruct (template_truthy (Command.searchTemplate v))|]; simpl;
      now rewrite ?orb_true_r, ?orb_false_r.
Qed.

Lemma load_loop (es : list (jsstring * Command.t)) (m : Map Command.t)
    (o : Object Command.t) (u : bool) :
  fold_left loadEntry es (m, o, u) =
    (setAll (map amended es) m, setAll (map amended es) o, u || existsb outdated es).
Proof.
  revert m o u. induction es as [|e es IH]; intros m o u; cbn [fold_left].
  - simpl. now rewrite orb_false_r.
  - rewrite loadEntry_amended, IH. unfold setAll. simpl. now rewrite orb_assoc.
Qed.

(** A stored document that parses replaces the commands by its entries,
    amended, and is written back, amended, when an entry was outdated. *)
Lemma loadCommands_parsed (st : State.t) (t : text (Object Command.t))
    (obj : Object Command.t) :
  Storage.commands (State.localStorage st) = Some t ->
  JSON_parse t = Some obj ->
  NoDup (map fst obj) ->
  loadCommands st =
    State.mk
      (if existsb outdated obj
       then storeCommands (State.localStorage st) (JSON_stringify (map amended obj))
       else State.localStorage st)
      (State.CONFIG st) (map amended obj).
Proof.
  intros Hs Hp ND. unfold loadCommands. rewrite Hs.
  destruct t as [doc| |]; [|discriminate|discriminate]. simpl in Hp. injection Hp as ->.
  simpl. unfold Object_entries, Map_clear. rewrite load_loop. simpl.
  rewrite (setAll_in_place amended obj amended_key ND).
  rewrite setAll_empty.
  - destruct (existsb outdated obj); reflexivity.
  - rewrite map_map. rewrite (map_ext _ fst) by apply amended_key. exact ND.
Qed.

(** C8. When the stored shortcut document does not parse, [loadCommands]
    returns with the state as it found it, whatever the state; at page load
    the commands are therefore the built-in set, and the stored text stays
    as it is. *)
Theorem load_unparseable_keeps_defaults (s : Storage.t)
    (t : text (Object Command.t)) :
  Storage.commands s = Some t ->
  JSON_parse t = None ->
  (forall st, Storage.commands (State.localStorage st) = Some t ->
              loadCommands st = st) /\
  State.COMMANDS (pageLoad s) = COMMANDS /\
  Storage.commands (State.localStorage (pageLoad s)) = Some t.
Proof.
  intros Hs Hp.
  assert (L : forall st, Storage.commands (State.localStorage st) = Some t ->
                         loadCommands st = st).
  { intros st H. unfold loadCommands. rewrite H.
    destruct (text_truthy t); simpl; [|reflexivity]. now rewrite Hp. }
  split; [exact L|].
  unfold pageLoad. rewrite L; [|exact Hs]. split; [reflexivity|exact Hs].
Qed.

Lemma load_unparseable_keeps_defaults_witness :
  State.COMMANDS
    (pageLoad (Storage.mk None None None (Some Garbled))) = COMMANDS.
Proof.
  exact (proj1 (proj2 (load_unparseable_keeps_defaults
    (Storage.mk None None None (Some Garbled))
    Garbled eq_refl eq_refl))).
Defined.



(** *** C6: blank fields *)

(** The edit dialog refuses a key, a name or a URL that is blank once
    trimmed, and leaves the state alone. *)
Lemma saveEditedShortcut_rejects_blank (key : jsstring) (value : Command.t)
    (k n v : jsstring) (answer : bool) (st : State.t) :
  trim k = [] \/ trim n = [] \/ trim v = [] ->
  saveEditedShortcut key value k n v answer st = (false, st).
Proof.
  intros H. unfold saveEditedShortcut.
  destruct H as [H|[H|H]]; rewrite H; simpl;
    now rewrite ?orb_true_r.
Qed.

(** C6. The add dialog tests the three inputs before trimming them: on a
    first visit a key of one space is stored as a shortcut, with the command
    map and the persisted document both changed. *)
Theorem createNewShortcut_accepts_blank_key :
  let st := pageLoad Storage.empty in
  let r := createNewShortcut (js " ") (js "x") (js "y") false st in
  trim (js " ") = [] /\
  fst r = true /\
  State.COMMANDS (snd r)
    = State.COMMANDS st ++ [(js " ", Command.mk (js "x") (js "https://y") None None None)] /\
  Storage.commands (State.localStorage st) = None /\
  Storage.commands (State.localStorage (snd r))
    = Some (Json (State.COMMANDS (snd r))).
Proof. vm_compute. repeat split. Qed.

(** The same dialog stores a URL of spaces as the bare prefix. *)
Lemma createNewShortcut_accepts_blank_url :
  let r := createNewShortcut (js "z") (js "x") (js "  ") false (pageLoad Storage.empty) in
  fst r = true /\
  Map_get (State.COMMANDS (snd r)) (js "z")
    = Some (Command.mk (js "x") (js "https://") None None None).
Proof. vm_compute. split; reflexivity. Qed.

(** *** C7: export, then import *)

(** C7. On a first visit nothing is stored about tabs and links open in a
    new tab; the export writes [current] for the missing entry, and importing
    that export makes links open in the current tab. *)
Theorem export_import_changes_tab_behavior :
  let st := pageLoad Storage.empty in
  let st' := handleImportFile (Some (exportConfig st)) true st in
  reachable st /\
  Config.openLinksInNewTab (State.CONFIG st) = true /\
  Config.openLinksInNewTab (State.CONFIG st') = false /\
  observe st' <> observe st.
Proof.
  cbv zeta. split; [constructor|]. split; [reflexivity|]. split; [reflexivity|].
  intros H. apply (f_equal (fun o => snd (fst (fst o)))) in H.
  vm_compute in H. discriminate.
Qed.

(** The order of the commands does not survive either when a key is an array
    index: added last, the key [1] comes first after the round trip. *)
Lemma export_import_moves_index_key :
  let st := snd (createNewShortcut (js "1") (js "One") (js "one.org") false
                   (pageLoad Storage.empty)) in
  let st' := handleImportFile (Some (exportConfig st)) true st in
  reachable st /\
  map fst (State.COMMANDS st) = map fst COMMANDS ++ [js "1"] /\
  map fst (State.COMMANDS st') = js "1" :: map fst COMMANDS.
Proof.
  cbv zeta. split; [repeat constructor|]. split; reflexivity.
Qed.

(** *** C9: the echo of the search text *)

(** C9, counterexample. For the search text [cats] the phrase [Cats] is
    kept. *)
Lemma capitalised_echo_is_kept :
  fetchDuckDuckGoSuggestions toLowerCase (js "cats") [js "Cats"; js "cats"]
  = [js "Cats"] /\
  ~ exclusion_as_claimed.
Proof.
  split; [reflexivity|]. intros H.
  apply (H (js "cats") [js "Cats"] (js "Cats")); [now left|reflexivity|].
  vm_compute. now left.
Qed.

(** The loop of the callback appends to what it has pushed the phrases that
    are not the echo, one after the other. *)
Lemma fetch_loop (echo : jsstring) (res acc : list jsstring) :
  fold_left
    (fun suggestions phrase =>
       if jseqb phrase echo then suggestions else suggestions ++ [phrase])
    res acc
  = acc ++ without echo res.
Proof.
  unfold without. revert acc. induction res as [|phrase res IH]; intros acc; simpl.
  - now rewrite app_nil_r.
  - rewrite IH. destruct (jseqb phrase echo); simpl; [reflexivity|].
    now rewrite <- app_assoc.
Qed.

Lemma fetch_without (lowerCase : jsstring -> jsstring) (search : jsstring)
    (res : list jsstring) :
  fetchDuckDuckGoSuggestions lowerCase search res = without (lowerCase search) res.
Proof. unfold fetchDuckDuckGoSuggestions. now rewrite fetch_loop. Qed.

Lemma fetch_keeps (lowerCase : jsstring -> jsstring) (search : jsstring)
    (res : list jsstring) (item : jsstring) :
  In item (fetchDuckDuckGoSuggestions lowerCase search res)
  <-> In item res /\ item <> lowerCase search.
Proof.
  rewrite fetch_without. unfold without. rewrite filter_In.
  rewrite negb_true_iff, jseqb_neq. reflexivity.
Qed.

(** A query parsed as a search is no key of the store, so no stored
    suggestion precedes the fetched ones. *)
Lemma parsed_search_is_no_key (anchor : jsstring -> Location.t) (cfg : Config.t)
    (cmds : Map Command.t) (fuel : nat) (raw : jsstring) (oq : Parsed.t)
    (s : jsstring) :
  parseQuery anchor cfg cmds fuel raw = Some (Return oq) ->
  Parsed.search oq = Some s ->
  Map_get cmds (Parsed.query oq) = None.
Proof.
  revert raw. induction fuel as [|fuel IH]; intros raw; [discriminate|].
  cbn [parseQuery].
  destruct (isUrl (trim raw)); [intros [= <-]; discriminate|].
  destruct (Map_get cmds (trim raw)) as [c|] eqn:G.
  { destruct (Command.command c) as [[|x t]|];
      [intros [= <-]; discriminate|apply IH|intros [= <-]; discriminate]. }
  destruct (splitAt commandSearchDelimiter (trim raw)) as [searchKey rawSearch].
  destruct (splitAt commandPathDelimiter (trim raw)) as [pathKey path].
  destruct (Map_get cmds searchKey) as [c|]; [destruct rawSearch as [[|x t]|]|];
    try (destruct (formatSearchUrl anchor (Command.url c) _ _);
         [intros [= <-] _; exact G|discriminate]);
    (destruct (Map_get cmds pathKey) as [c'|]; [destruct path as [[|y p]|]|]);
    try (intros [= <-]; discriminate);
    cbv zeta; destruct (splitUrl anchor _);
    destruct (formatSearchUrl anchor _ _ _); try discriminate;
    intros [= <-] _; exact G.
Qed.

Lemma In_firstn {A} (n : nat) (l : list A) (x : A) : In x (firstn n l) -> In x l.
Proof.
  intros H. rewrite <- (firstn_skipn n l). apply in_or_app. now left.
Qed.

Lemma attachSearchPrefix_in (oq : Parsed.t) (res : list jsstring) (x : jsstring) :
  In (searchPrefix oq ++ x)
     (attachSearchPrefix res (Parsed.key oq) (Parsed.splitBy oq)) -> In x res.
Proof.
  unfold searchPrefix, attachSearchPrefix.
  destruct (Parsed.splitBy oq) as [[|d ds]|]; [simpl; tauto| |simpl; tauto].
  rewrite in_map_iff. intros (y & E & Hy).
  rewrite <- app_assoc in E. apply app_inv_head in E.
  apply app_inv_head in E. now subst y.
Qed.

(** C9, amended. Whatever [toLowerCase] makes of the search text, the
    phrases kept are the phrases answered without those identical to the
    search text in lower case, in their order and as often as they occur: a
    phrase is dropped exactly when it is the search text in lower case, and
    it is compared as it is. Hence the search text in lower case, behind the
    prefix of its command, is never among the suggestions rendered for an
    input that stays as it is. *)
Theorem lowercased_echo_is_dropped (anchor : jsstring -> Location.t)
    (lowerCase : jsstring -> jsstring) (cfg : Config.t) (cmds : Map Command.t)
    (source : jsstring -> list jsstring) (fuel : nat) (value : jsstring) :
  (forall search res,
      fetchDuckDuckGoSuggestions lowerCase search res
      = without (lowerCase search) res) /\
  (forall search before item after,
      fetchDuckDuckGoSuggestions lowerCase search (before ++ item :: after)
      = fetchDuckDuckGoSuggestions lowerCase search before
        ++ (if jseqb item (lowerCase search) then [] else [item])
        ++ fetchDuckDuckGoSuggestions lowerCase search after) /\
  (forall search res item,
      In item (fetchDuckDuckGoSuggestions lowerCase search res)
      <-> In item res /\ item <> lowerCase search) /\
  (forall oq s rendered,
      parseQuery anchor cfg cmds fuel value = Some (Return oq) ->
      Parsed.search oq = Some s ->
      onInput anchor lowerCase cfg cmds source fuel value = Some (Return rendered) ->
      ~ In (searchPrefix oq ++ lowerCase s) rendered).
Proof.
  split; [intros; apply fetch_without|].
  split.
  { intros search before item after. rewrite !fetch_without. unfold without.
    rewrite filter_app. cbn [filter].
    now destruct (jseqb item (lowerCase search)). }
  split; [intros; apply fetch_keeps|].
  intros oq s rendered Hp Hs Hr F. unfold onInput in Hr. rewrite Hp in Hr.
  rewrite (parsed_search_is_no_key anchor cfg cmds fuel value oq s Hp Hs) in Hr.
  rewrite Hs in Hr.
  destruct (Parsed.query oq); [injection Hr as <-; contradiction|].
  destruct s as [|x t]; injection Hr as <-; [contradiction|].
  simpl in F. apply In_firstn in F. apply attachSearchPrefix_in in F.
  apply fetch_keeps in F. destruct F as [_ F]. now apply F.
Qed.

Lemma lowercased_echo_is_dropped_witness :
  ~ In (js "y cats")
      [js "y Cats"; js "y cats and dogs"].
Proof.
  exact (proj2 (proj2 (proj2 (lowercased_echo_is_dropped href toLowerCase CONFIG
           COMMANDS (fun _ => [js "Cats"; js "cats"; js "cats and dogs"]) 1
           (js "y Cats"))))
         (Parsed.mk (Some (js "y")) (js "y Cats") (Some (js "Cats")) (Some (js " "))
            None (One (js "https://youtube.com/results?search_query=Cats"))
            (Some (Single (js "/results?search_query={}"))))
         (js "Cats") [js "y Cats"; js "y cats and dogs"]
         eq_refl eq_refl eq_refl).
Defined.

(** *** Where the round trip does hold *)

Lemma Object_fromEntries_from {V} (m : Map V) (acc : Object V) :
  NoDup (map fst m) ->
  (forall k, In k (map fst m) -> array_index k = None /\ ~ In k (map fst acc)) ->
  fold_left (fun o kv => Object_define o (fst kv) (snd kv)) m acc = acc ++ m.
Proof.
  revert acc. induction m as [|[k v] m IH]; intros acc ND H; simpl.
  - now rewrite app_nil_r.
  - inversion ND as [|? ? Hk ND']; subst.
    destruct (H k (or_introl eq_refl)) as [Hi Hacc].
    unfold Object_define at 2. unfold Map_has.
    apply Map_get_none in Hacc. rewrite Hacc, Hi.
    rewrite IH; [now rewrite <- app_assoc|assumption|].
    intros k' Hk'. destruct (H k' (or_intror Hk')) as [Hi' Hacc'].
    split; [assumption|].
    rewrite map_app, in_app_iff. simpl. intros [F|[F|[]]]; [contradiction|].
    subst k'. contradiction.
Qed.

(** Without array indices among its keys, a map and the object made of its
    entries list the same entries in the same order. *)
Lemma Object_fromEntries_plain {V} (m : Map V) :
  NoDup (map fst m) ->
  (forall k, In k (map fst m) -> array_index k = None) ->
  Object_fromEntries m = m.
Proof.
  intros ND H. unfold Object_fromEntries.
  rewrite Object_fromEntries_from; auto.
Qed.

Lemma orElse_some (v fallback : jsstring) : v <> [] -> orElse (Some v) fallback = v.
Proof. destruct v; [contradiction|reflexivity]. Qed.

Lemma valid_theme_imported (theme : jsstring) :
  In theme VALID_THEMES ->
  theme <> [] /\
  includes [js "system"; js "dark"; js "light"; js "void"; js "dark-abyss"] theme = true /\
  jseqb theme (js "dark-abyss") = false.
Proof.
  intros H. simpl in H.
  destruct H as [<-|[<-|[<-|[<-|[]]]]]; repeat split; discriminate.
Qed.

(** In a settled state, importing the export of the state changes nothing
    the user can tell. *)
Lemma export_import_settled (st : State.t) :
  settled st ->
  observe (handleImportFile (Some (exportConfig st)) true st) = observe st.
Proof.
  intros ((theme & Ht & Hv) & (tab & Hb & Hne & Hopen) & He & Htpl & ND & Hidx).
  destruct (valid_theme_imported theme Hv) as (Htne & Hinc & Habyss).
  unfold handleImportFile, exportConfig. cbn [JSON_parse JSON_stringify negb].
  cbn [Settings.theme Settings.tabBehavior Settings.searchEngine Settings.commands].
  rewrite Ht, Hb, (orElse_some theme _ Htne), (orElse_some tab _ Hne).
  destruct theme as [|t0 theme']; [contradiction|].
  destruct tab as [|b0 tab']; [contradiction|].
  rewrite Hinc. unfold applyThemePreference. rewrite Habyss.
  assert (Eng : orElse (Storage.searchEngine (State.localStorage st)) (js "google") <> []).
  { destruct (Storage.searchEngine (State.localStorage st)) as [[|? ?]|]; discriminate. }
  destruct (orElse (Storage.searchEngine (State.localStorage st)) (js "google"))
    as [|e0 engine'] eqn:E; [contradiction|].
  rewrite (Object_fromEntries_plain (State.COMMANDS st) ND Hidx).
  destruct st as [ls cfg cmds]. simpl in *.
  unfold observe, saveCommands, setCommands, setStorage, storeCommands,
    storeSearchEngine, storeTabBehavior, storeTheme, Object_entries, Map_clear.
  simpl. rewrite (setAll_empty cmds ND).
  rewrite <- Hopen, <- He, <- Htpl, Ht. reflexivity.
Qed.

(** Choosing a tab behaviour on a first visit settles the state. *)
Lemma settled_after_choice :
  settled (handleTabBehaviorChange (js "new") (pageLoad Storage.empty)).
Proof.
  unfold settled. repeat split.
  - exists (js "system"). split; [reflexivity|now left].
  - exists (js "new"). repeat split. discriminate.
  - vm_compute. repeat constructor; simpl; intuition discriminate.
  - intros k H. vm_compute in H.
    repeat (destruct H as [<-|H]; [reflexivity|]). contradiction.
Qed.

(** * Further properties of the code *)

(** ** Trimming *)

Lemma trimStart_clean (s : jsstring) :
  Forall (fun c => is_space c = false) s -> trimStart s = s.
Proof.
  intros H. destruct H as [|c s Hc H]; [reflexivity|]. simpl. now rewrite Hc.
Qed.

Lemma trim_clean (s : jsstring) :
  Forall (fun c => is_space c = false) s -> trim s = s.
Proof.
  intros H. unfold trim, trimEnd. rewrite (trimStart_clean s H).
  rewrite trimStart_clean; [apply rev_involutive|]. now apply Forall_rev.
Qed.

Lemma trimStart_suffix (s : jsstring) : exists p, s = p ++ trimStart s.
Proof.
  induction s as [|c s [p IH]]; [now exists []|]. simpl.
  destruct (is_space c); [|now exists []].
  exists (c :: p). simpl. now f_equal.
Qed.

(** Trimming only drops code units: what holds of every code unit of a text
    holds of every code unit of the trimmed text. *)
Lemma trim_Forall (P : char -> Prop) (s : jsstring) :
  Forall P s -> Forall P (trim s).
Proof.
  intros H. unfold trim, trimEnd.
  assert (S : forall t, Forall P t -> Forall P (trimStart t)).
  { intros t Ht. destruct (trimStart_suffix t) as [p E]. rewrite E in Ht.
    now apply Forall_app in Ht as [_ Ht]. }
  apply Forall_rev, S, Forall_rev, S, H.
Qed.

Lemma restOfLine_Forall (P : char -> Prop) (s : jsstring) :
  Forall P s -> Forall P (restOfLine s).
Proof.
  induction 1 as [|c s Hc H IH]; simpl; [constructor|].
  destruct (is_line_terminator c); constructor; assumption.
Qed.

Lemma splitAt_Forall (P : char -> Prop) (d : char) (s : jsstring) :
  Forall P s ->
  Forall P (fst (splitAt d s)) /\
  match snd (splitAt d s) with Some r => Forall P r | None => True end.
Proof.
  induction 1 as [|c s Hc H [IH1 IH2]]; simpl; [split; [constructor|exact I]|].
  destruct (N.eqb c d).
  - simpl. split; [constructor|now apply restOfLine_Forall].
  - destruct (splitAt d s) as [k r]. simpl in *. split; [now constructor|exact IH2].
Qed.

(** ** The resolver, continued *)

(** X1. No text that [isUrl] accepts holds a white-space code unit: what is
    typed with a space or a line break in it is never taken for an address. *)
Theorem accepted_url_has_no_space (s : jsstring) (c : char) :
  isUrl s = true -> In c s -> is_space c = false.
Proof.
  intros H Hc. apply isUrl_no_space in H.
  rewrite Forall_forall in H. now apply H.
Qed.

Lemma accepted_url_has_no_space_witness : is_space 46 = false.
Proof.
  apply (accepted_url_has_no_space (js "example.com") 46 eq_refl).
  vm_compute. tauto.
Defined.

Lemma scheme_prefixed (q : jsstring) :
  lang host_pattern q ->
  isUrl (js "https://" ++ q) = true /\ hasProtocol (js "https://" ++ q) = true.
Proof.
  intros H. split; apply matches_lang.
  - unfold url_pattern. constructor; [|exact H].
    apply lang_right. now apply matches_lang.
  - constructor; [now apply matches_lang|apply lang_any].
Qed.

Lemma accepted_without_protocol (q : jsstring) :
  isUrl q = true -> hasProtocol q = false -> lang host_pattern q.
Proof.
  intros U P. pose proof (isUrl_hasProtocol q U) as E. rewrite P in E.
  apply matches_lang in U. unfold url_pattern in U.
  inversion U as [| |? ? u v Hu Hv| | | |]; subst.
  inversion Hu as [| | |? ? ? Hb|? ? ? Hs| |]; subst.
  - inversion Hb; subst. exact Hv.
  - exfalso. assert (T : startsWithScheme (u ++ v) = true); [|congruence].
    apply matches_lang. constructor; [assumption|apply lang_any].
Qed.

(** X2. The address that a direct resolution returns always carries a
    protocol, is accepted as a URL itself, and resolves to itself: resolving
    is idempotent on it, whatever the store holds. *)
Theorem direct_url_is_fixed (anchor : jsstring -> Location.t) (cfg : Config.t)
    (cmds : Map Command.t) (fuel : nat) (raw u : jsstring) :
  isUrl (trim raw) = true ->
  resolved (parseQuery anchor cfg cmds (S fuel) raw) = Some (One u) ->
  hasProtocol u = true /\
  isUrl u = true /\
  parseQuery anchor cfg cmds (S fuel) u =
    Some (Return (Parsed.mk None u None None None (One u) None)).
Proof.
  intros U R. cbn [parseQuery] in R. rewrite U in R. simpl in R.
  assert (G : hasProtocol u = true /\ isUrl u = true).
  { destruct (hasProtocol (trim raw)) eqn:P; injection R as <-; [auto|].
    destruct (scheme_prefixed (trim raw) (accepted_without_protocol _ U P)).
    auto. }
  destruct G as [P' U']. repeat split; try assumption.
  cbn [parseQuery]. rewrite (trim_clean u (isUrl_no_space u U')).
  now rewrite U', P'.
Qed.

Lemma direct_url_is_fixed_witness :
  parseQuery href CONFIG COMMANDS 1 (js "https://example.com") =
    Some (Return (Parsed.mk None (js "https://example.com") None None None
      (One (js "https://example.com")) None)).
Proof.
  exact (proj2 (proj2 (direct_url_is_fixed href CONFIG COMMANDS 0
    (js " example.com") (js "https://example.com") eq_refl eq_refl))).
Defined.

(** X3. A search command on a shortcut without a search template resolves
    to the shortcut's own URL, and the search text is not encoded at all: the
    resolution returns even for a text that cannot be encoded. *)
Theorem search_without_template (anchor : jsstring -> Location.t) (cfg : Config.t)
    (cmds : Map Command.t) (fuel : nat) (raw key rest : jsstring) (c : Command.t) :
  trim raw = key ++ commandSearchDelimiter :: rest ->
  ~ In commandSearchDelimiter key ->
  Map_get cmds (trim raw) = None ->
  Map_get cmds key = Some c ->
  template_truthy (Command.searchTemplate c) = false ->
  restOfLine rest <> [] ->
  parseQuery anchor cfg cmds (S fuel) raw =
    Some (Return (Parsed.mk (Some key) (trim raw) (Some (trim (restOfLine rest)))
      (Some [commandSearchDelimiter]) None (One (Command.url c))
      (Command.searchTemplate c))).
Proof.
  intros Hq Hkey Hexact Hget Htpl Hrest.
  cbn [parseQuery]. rewrite Hq in Hexact |- *. rewrite Hexact.
  rewrite (isUrl_with_space key rest commandSearchDelimiter eq_refl).
  rewrite (splitAt_first _ _ _ Hkey), Hget.
  destruct (restOfLine rest) as [|x l] eqn:E; [contradiction|].
  unfold formatSearchUrl.
  destruct (Command.searchTemplate c) as [[[|t0 t]|ps]|]; try discriminate; reflexivity.
Qed.

Lemma search_without_template_witness :
  resolved (parseQuery href CONFIG COMMANDS 1 (js "g " ++ [55357]))
  = Some (One (js "https://mail.google.com/mail/u/0/#inbox")).
Proof.
  refine (f_equal resolved
    (search_without_template href CONFIG COMMANDS 0 (js "g " ++ [55357]) (js "g")
       [55357] (command "Gmail" "https://mail.google.com/mail/u/0/#inbox" None None)
       eq_refl _ eq_refl eq_refl eq_refl _)).
  - vm_compute. intros [H|[]]. discriminate.
  - discriminate.
Defined.

Lemma replacePlaceholder_query (enc : jsstring) :
  replacePlaceholder (js "/search?q={}") enc = js "/search?q=" ++ enc /\
  replacePlaceholder (js "/?q={}") enc = js "/?q=" ++ enc.
Proof. split; simpl; now rewrite app_nil_r. Qed.

(** X4. An input that is no URL, no key, and whose text before the first
    search delimiter and before the first path delimiter is no key, is
    searched with the configured engine: the resolved URL is the engine's
    address with the percent-encoded, trimmed input as its query. *)
Theorem default_search_url (cfg : Config.t) (cmds : Map Command.t) (fuel : nat)
    (raw engine enc : jsstring) :
  In engine [js "google"; js "duckduckgo"] ->
  Config.defaultSearchTemplate cfg = searchEngineTemplates engine ->
  isUrl (trim raw) = false ->
  Map_get cmds (trim raw) = None ->
  Map_get cmds (fst (splitAt commandSearchDelimiter (trim raw))) = None ->
  Map_get cmds (fst (splitAt commandPathDelimiter (trim raw))) = None ->
  encodeURIComponent (trim raw) = Some enc ->
  parseQuery href cfg cmds (S fuel) raw =
    Some (Return (Parsed.mk None (trim raw) (Some (trim raw)) None None
      (One ((if jseqb engine (js "google")
             then js "https://www.google.com/search?q="
             else js "https://duckduckgo.com/?q=") ++ enc)) None)).
Proof.
  intros He Ht Hu Hk Hs Hp Henc.
  cbn [parseQuery]. rewrite Hu, Hk.
  destruct (splitAt commandSearchDelimiter (trim raw)) as [searchKey rawSearch].
  destruct (splitAt commandPathDelimiter (trim raw)) as [pathKey path].
  simpl in Hs, Hp. rewrite Hs, Hp, Ht.
  destruct (replacePlaceholder_query enc) as [G D].
  destruct He as [<-|[<-|[]]].
  - change (searchEngineTemplates (js "google"))
      with (Some (js "https://www.google.com/search?q={}")).
    cbv iota beta.
    change (splitUrl href (js "https://www.google.com/search?q={}"))
      with (js "https://www.google.com", 47 :: js "search?q={}").
    cbv iota beta. unfold formatSearchUrl.
    change (fst (splitUrl href (js "https://www.google.com")))
      with (js "https://www.google.com").
    rewrite Henc. change (47 :: js "search?q={}") with (js "/search?q={}").
    rewrite G. reflexivity.
  - change (searchEngineTemplates (js "duckduckgo"))
      with (Some (js "https://duckduckgo.com/?q={}")).
    cbv iota beta.
    change (splitUrl href (js "https://duckduckgo.com/?q={}"))
      with (js "https://duckduckgo.com", 47 :: js "?q={}").
    cbv iota beta. unfold formatSearchUrl.
    change (fst (splitUrl href (js "https://duckduckgo.com")))
      with (js "https://duckduckgo.com").
    rewrite Henc. change (47 :: js "?q={}") with (js "/?q={}").
    rewrite D. reflexivity.
Qed.

Lemma default_search_url_witness :
  resolved (parseQuery href (Config.mk false (js "duckduckgo")
                               (searchEngineTemplates (js "duckduckgo")))
              COMMANDS 1 (js "what is 1+1"))
  = Some (One (js "https://duckduckgo.com/?q=what%20is%201%2B1")).
Proof.
  refine (f_equal resolved
    (default_search_url
       (Config.mk false (js "duckduckgo") (searchEngineTemplates (js "duckduckgo")))
       COMMANDS 0 (js "what is 1+1") (js "duckduckgo") (js "what%20is%201%2B1")
       _ eq_refl eq_refl eq_refl eq_refl eq_refl eq_refl)).
  right. now left.
Defined.

(** ** Encoding *)

Lemma encode_point_app (cp : N) (rest : option jsstring) :
  option_map (app (encode_point cp)) rest = None -> rest = None.
Proof. destruct rest; [discriminate|reflexivity]. Qed.

(** A text without surrogates can always be encoded. *)
Lemma encodeURIComponent_plain (s : jsstring) :
  Forall (fun c => is_low_surrogate c = false /\ is_high_surrogate c = false) s ->
  exists e, encodeURIComponent s = Some e.
Proof.
  induction 1 as [|c s [L H] _ [e IH]]; simpl; [eauto|].
  rewrite L, H, IH. simpl. eauto.
Qed.

Lemma formatSearchUrl_plain (anchor : jsstring -> Location.t) (url search : jsstring)
    (tpl : option template) :
  Forall (fun c => is_low_surrogate c = false /\ is_high_surrogate c = false) search ->
  exists t, formatSearchUrl anchor url tpl search = Return t.
Proof.
  intros H. destruct (encodeURIComponent_plain search H) as [e E].
  unfold formatSearchUrl.
  destruct tpl as [[[|t0 t]|ps]|]; rewrite ?E; eauto.
Qed.

(** X5. An input without surrogate code units that is not redirected always
    resolves to a descriptor: the only failure of a resolution, the URIError
    of the encoding, needs a lone surrogate in the text. *)
Theorem plain_text_resolves (anchor : jsstring -> Location.t) (cfg : Config.t)
    (cmds : Map Command.t) (fuel : nat) (raw : jsstring) :
  Forall (fun c => is_low_surrogate c = false /\ is_high_surrogate c = false) raw ->
  redirects cmds raw = None ->
  exists oq, parseQuery anchor cfg cmds (S fuel) raw = Some (Return oq).
Proof.
  intros Hraw Hred. unfold redirects in Hred. cbn [parseQuery].
  pose proof (trim_Forall _ raw Hraw) as Hq.
  destruct (isUrl (trim raw)); [eauto|].
  destruct (Map_get cmds (trim raw)) as [c|].
  { destruct (Command.command c) as [[|x t]|]; [eauto|discriminate|eauto]. }
  pose proof (splitAt_Forall _ commandSearchDelimiter (trim raw) Hq) as [_ Hs].
  destruct (splitAt commandSearchDelimiter (trim raw)) as [searchKey rawSearch].
  destruct (splitAt commandPathDelimiter (trim raw)) as [pathKey path].
  simpl in Hs.
  assert (Default : exists oq,
    (let href :=
       match Config.defaultSearchTemplate cfg with
       | Some s => s
       | None => js "undefined"
       end in
     let (baseUrl, rest) := splitUrl anchor href in
     match formatSearchUrl anchor baseUrl (Some (Single rest)) (trim raw) with
     | URIError => Some URIError
     | Return url =>
         Some (Return (Parsed.mk None (trim raw) (Some (trim raw)) None None url None))
     end) = Some (Return oq)).
  { cbv zeta. destruct (splitUrl anchor _) as [baseUrl rest].
    destruct (formatSearchUrl_plain anchor baseUrl (trim raw) (Some (Single rest)) Hq)
      as [t E].
    rewrite E. eauto. }
  destruct (Map_get cmds searchKey) as [c|].
  - destruct rawSearch as [[|x t]|].
    + destruct (Map_get cmds pathKey); [destruct path as [[|y p]|]|]; eauto.
    + destruct (formatSearchUrl_plain anchor (Command.url c) (trim (x :: t))
                  (Command.searchTemplate c) (trim_Forall _ _ Hs)) as [u E].
      rewrite E. eauto.
    + destruct (Map_get cmds pathKey); [destruct path as [[|y p]|]|]; eauto.
  - destruct (Map_get cmds pathKey); [destruct path as [[|y p]|]|]; eauto.
Qed.

Lemma plain_text_resolves_witness :
  exists oq, parseQuery href CONFIG COMMANDS 1 (js "y cats") = Some (Return oq).
Proof.
  apply (plain_text_resolves href CONFIG COMMANDS 0 (js "y cats")).
  - vm_compute. repeat constructor.
  - reflexivity.
Defined.

Lemma hex_digit_unreserved (n : N) : n < 16 -> is_unreserved (hex_digit n) = true.
Proof.
  intros H. unfold hex_digit, is_unreserved.
  destruct (N.ltb n 10) eqn:E.
  - apply N.ltb_lt in E.
    assert (D : is_digit (48 + n) = true) by char_arith.
    rewrite D. now rewrite orb_true_r.
  - apply N.ltb_ge in E.
    assert (D : is_letter (55 + n) = true).
    { unfold is_letter. assert (U : is_upper (55 + n) = true) by char_arith.
      now rewrite U. }
    now rewrite D.
Qed.

Lemma percent_plain (b : N) :
  b < 256 -> Forall (fun c => is_unreserved c = true \/ c = 37) (percent b).
Proof.
  intros H. unfold percent.
  constructor; [now right|]. constructor; [|constructor; [|constructor]].
  - left. apply hex_digit_unreserved. apply N.Div0.div_lt_upper_bound. lia.
  - left. apply hex_digit_unreserved. apply N.mod_upper_bound. lia.
Qed.

Lemma utf8_octets (cp : N) : cp < 1114112 -> Forall (fun b => b < 256) (utf8 cp).
Proof.
  intros H. unfold utf8.
  assert (M : forall x, 128 + x mod 64 < 256).
  { intros x. pose proof (N.mod_upper_bound x 64). lia. }
  destruct (N.ltb cp 128) eqn:E1; [apply N.ltb_lt in E1; repeat constructor; lia|].
  destruct (N.ltb cp 2048) eqn:E2.
  { apply N.ltb_lt in E2. repeat constructor; [|apply M].
    assert (cp / 64 < 32) by (apply N.Div0.div_lt_upper_bound; lia). lia. }
  destruct (N.ltb cp 65536) eqn:E3.
  { apply N.ltb_lt in E3. repeat constructor; [|apply M|apply M].
    assert (cp / 4096 < 16) by (apply N.Div0.div_lt_upper_bound; lia). lia. }
  repeat constructor; [|apply M|apply M|apply M].
  assert (cp / 262144 < 5) by (apply N.Div0.div_lt_upper_bound; lia). lia.
Qed.

Lemma encode_point_plain (cp : N) :
  cp < 1114112 -> Forall (fun c => is_unreserved c = true \/ c = 37) (encode_point cp).
Proof.
  intros H. unfold encode_point. destruct (is_unreserved cp) eqn:E.
  - constructor; [now left|constructor].
  - pose proof (utf8_octets cp H) as O.
    induction O as [|b l Hb O IH]; cbn [flat_map]; [constructor|].
    apply Forall_app. split; [now apply percent_plain|exact IH].
Qed.

Lemma encodeURIComponent_output (s e : jsstring) :
  Forall (fun c => c < 65536) s ->
  encodeURIComponent s = Some e ->
  Forall (fun c => is_unreserved c = true \/ c = 37) e.
Proof.
  intros H. revert e.
  assert (G : forall n s, (List.length s <= n)%nat -> Forall (fun c => c < 65536) s ->
            forall e, encodeURIComponent s = Some e ->
            Forall (fun c => is_unreserved c = true \/ c = 37) e).
  { clear. induction n as [|n IH]; intros s L H e E.
    - destruct s; [|simpl in L; lia]. injection E as <-. constructor.
    - destruct s as [|c t]; [injection E as <-; constructor|].
      simpl in E, L. inversion H as [|? ? Hc Ht]; subst.
      destruct (is_low_surrogate c) eqn:Lo; [discriminate|].
      destruct (is_high_surrogate c) eqn:Hi.
      + destruct t as [|d t']; [discriminate|].
        destruct (is_low_surrogate d) eqn:Ld; [|discriminate].
        inversion Ht as [|? ? Hd Ht']; subst.
        destruct (encodeURIComponent t') as [e'|] eqn:E'; [|discriminate].
        injection E as <-. apply Forall_app. split.
        * apply encode_point_plain.
          unfold is_high_surrogate, is_low_surrogate, between in *.
          apply andb_true_iff in Hi as [Hi1 Hi2]. apply andb_true_iff in Ld as [Ld1 Ld2].
          apply N.leb_le in Hi1, Hi2, Ld1, Ld2. lia.
        * apply (IH t'); [simpl in L; lia|assumption|assumption].
      + destruct (encodeURIComponent t) as [e'|] eqn:E'; [|discriminate].
        injection E as <-. apply Forall_app. split.
        * apply encode_point_plain. lia.
        * apply (IH t); [lia|assumption|assumption]. }
  intros e E. exact (G (List.length s) s (le_n _) H e E).
Qed.

(** X6. The URL that [formatSearchUrl] builds from a template string is
    the origin followed by the template with its placeholders replaced by a
    text made of unreserved characters and percent signs only: no white
    space, no dollar sign that the replacement would read as a pattern, no
    brace that would make a new placeholder. *)
Theorem search_url_substitutes_plain_text (anchor : jsstring -> Location.t)
    (url tpl search u : jsstring) :
  Forall (fun c => c < 65536) search ->
  tpl <> [] ->
  formatSearchUrl anchor url (Some (Single tpl)) search = Return (One u) ->
  exists e,
    encodeURIComponent search = Some e /\
    u = origin anchor url ++ replacePlaceholder tpl e /\
    Forall (fun c => is_unreserved c = true \/ c = 37) e.
Proof.
  intros H N F. unfold formatSearchUrl in F.
  destruct tpl as [|t0 tpl']; [contradiction|].
  destruct (encodeURIComponent search) as [e|] eqn:E; [|discriminate].
  injection F as <-. exists e. repeat split.
  exact (encodeURIComponent_output search e H E).
Qed.

Lemma search_url_substitutes_plain_text_witness :
  exists e,
    encodeURIComponent (js "50% ${off}") = Some e /\
    js "https://open.spotify.com/search/50%25%20%24%7Boff%7D"
      = origin href (js "https://open.spotify.com") ++ replacePlaceholder (js "/search/{}") e /\
    Forall (fun c => is_unreserved c = true \/ c = 37) e.
Proof.
  apply (search_url_substitutes_plain_text href (js "https://open.spotify.com")
           (js "/search/{}") (js "50% ${off}")).
  - vm_compute. repeat constructor.
  - discriminate.
  - reflexivity.
Defined.

Lemma parseQuery_returns_unless_redirected (anchor : jsstring -> Location.t)
    (cfg : Config.t) (cmds : Map Command.t) (fuel : nat) (raw : jsstring) :
  redirects cmds raw = None ->
  exists r, parseQuery anchor cfg cmds (S fuel) raw = Some r.
Proof.
  unfold redirects. cbn [parseQuery].
  destruct (isUrl (trim raw)); [eauto|].
  destruct (Map_get cmds (trim raw)) as [c|] eqn:G.
  - destruct (Command.command c) as [[|x t]|] eqn:C; [eauto|discriminate|eauto].
  - intros _.
    destruct (splitAt commandSearchDelimiter (trim raw)) as [searchKey rawSearch].
    destruct (Map_get cmds searchKey) as [c|];
      [destruct rawSearch as [[|x t]|];
       [|destruct (formatSearchUrl _ _ _ _); eauto|]|];
    destruct (splitAt commandPathDelimiter (trim raw)) as [pathKey path];
    (destruct (Map_get cmds pathKey) as [c'|];
      [destruct path as [[|y p]|]; [|eauto|]|]);
    destruct (splitUrl _ _); destruct (formatSearchUrl _ _ _ _); eauto.
Qed.

(** X7. A resolution fails to return, however deep the recursion may go,
    exactly when the redirections followed from the input never end: when
    the input lies in a set of inputs each of which is redirected to an input
    of the set, as on a cycle of any length. Nothing else keeps [parseQuery]
    from returning. *)
Theorem diverges_iff_endless_redirection (anchor : jsstring -> Location.t)
    (cfg : Config.t) (cmds : Map Command.t) (raw : jsstring) :
  (forall fuel, parseQuery anchor cfg cmds fuel raw = None) <->
  (exists P : jsstring -> Prop,
     P raw /\
     forall r, P r -> exists target, redirects cmds r = Some target /\ P target).
Proof.
  split.
  - intros D. exists (fun r => forall fuel, parseQuery anchor cfg cmds fuel r = None).
    split; [exact D|]. intros r Dr.
    destruct (redirects cmds r) as [target|] eqn:R.
    + exists target. split; [reflexivity|]. intros fuel.
      rewrite <- (parseQuery_redirect anchor cfg cmds fuel r target R). apply Dr.
    + exfalso.
      destruct (parseQuery_returns_unless_redirected anchor cfg cmds 0 r R) as [x E].
      rewrite Dr in E. discriminate.
  - intros (P & HP & Closed) fuel.
    now apply (endless_redirection_diverges anchor cfg cmds P Closed).
Qed.

Lemma diverges_iff_endless_redirection_witness :
  parseQuery href CONFIG loop_store 1000 (js "a") = None.
Proof.
  generalize 1000%nat.
  apply (proj2 (diverges_iff_endless_redirection href CONFIG loop_store (js "a"))).
  exists (fun raw => raw = js "a" \/ raw = js "b"). split; [now left|].
  intros raw [-> | ->].
  - exists (js "b"). split; [reflexivity|now right].
  - exists (js "a"). split; [reflexivity|now left].
Defined.

(** ** Suggestions *)


(** X8. Never more than [suggestionLimit] suggestions are rendered. *)
Theorem rendered_within_limit (anchor : jsstring -> Location.t)
    (lowerCase : jsstring -> jsstring) (cfg : Config.t)
    (cmds : Map Command.t) (source : jsstring -> list jsstring) (fuel : nat)
    (value : jsstring) (rendered : list jsstring) :
  onInput anchor lowerCase cfg cmds source fuel value = Some (Return rendered) ->
  (List.length rendered <= suggestionLimit)%nat.
Proof.
  unfold onInput.
  destruct (parseQuery anchor cfg cmds fuel value) as [[oq|]|]; try discriminate.
  destruct (Parsed.query oq); intros [= <-]; [simpl; lia|].
  unfold renderSuggestions. apply firstn_le_length.
Qed.

Lemma rendered_within_limit_witness :
  (List.length [js "r/r/webdev"; js "r/r/learnprogramming"; js "r/r/gamedev";
                js "r/r/LifeProTips/"] <= suggestionLimit)%nat.
Proof.
  exact (rendered_within_limit href toLowerCase CONFIG COMMANDS (fun _ => []) 1
           (js "r") _ eq_refl).
Defined.

(** X9. For an input that is exactly a key (and no URL, with no
    redirection), the suggestions rendered are the first [suggestionLimit]
    of the suggestions stored with the command, none when it stores none:
    the autocomplete source is not consulted, whatever it would answer. *)
Theorem exact_match_shows_stored_suggestions (anchor : jsstring -> Location.t)
    (lowerCase : jsstring -> jsstring)
    (cfg : Config.t) (cmds : Map Command.t) (source : jsstring -> list jsstring)
    (fuel : nat) (value : jsstring) (c : Command.t) :
  trim value <> [] ->
  isUrl (trim value) = false ->
  Map_get cmds (trim value) = Some c ->
  redirects cmds value = None ->
  onInput anchor lowerCase cfg cmds source (S fuel) value =
    Some (Return (firstn suggestionLimit
                    (match Command.suggestions c with Some l => l | None => [] end))).
Proof.
  intros Hne Hu Hg Hr. unfold redirects in Hr. rewrite Hu, Hg in Hr.
  unfold onInput. cbn [parseQuery]. rewrite Hu, Hg.
  assert (E : match Command.command c with
              | Some ((_ :: _) as command) => parseQuery anchor cfg cmds fuel command
              | _ => Some (Return
                       (Parsed.mk None (trim value) None None None
                          (One (Command.url c)) None))
              end = Some (Return (Parsed.mk None (trim value) None None None
                                    (One (Command.url c)) None))).
  { destruct (Command.command c) as [[|x t]|]; [reflexivity|discriminate|reflexivity]. }
  rewrite E. cbn [Parsed.query Parsed.search]. rewrite Hg.
  destruct (trim value); [contradiction|reflexivity].
Qed.

Lemma exact_match_shows_stored_suggestions_witness :
  onInput href toLowerCase CONFIG COMMANDS (fun _ => [js "yahoo"; js "youtube"])
    1 (js "y")
  = Some (Return [js "y/feed/subscriptions"]).
Proof.
  refine (exact_match_shows_stored_suggestions href toLowerCase CONFIG COMMANDS
            (fun _ => [js "yahoo"; js "youtube"]) 0 (js "y")
            (command "YouTube" "https://youtube.com/"
               (Some "/results?search_query={}") (Some ["y/feed/subscriptions"]))
            _ eq_refl eq_refl eq_refl).
  discriminate.
Defined.



(** ** Maps, continued *)

Lemma Map_delete_keys {V} (m : Map V) (k k' : jsstring) :
  In k' (map fst (Map_delete m k)) -> In k' (map fst m).
Proof.
  induction m as [|[k0 v0] m IH]; simpl; [tauto|].
  destruct (jseqb k0 k); simpl; tauto.
Qed.

Lemma Map_delete_NoDup {V} (m : Map V) (k : jsstring) :
  NoDup (map fst m) -> NoDup (map fst (Map_delete m k)).
Proof.
  induction m as [|[k0 v0] m IH]; simpl; intros ND; [constructor|].
  inversion ND as [|? ? Hk ND']; subst.
  destruct (jseqb k0 k); [assumption|]. simpl. constructor; [|auto].
  intros F. apply Hk. eapply Map_delete_keys; eauto.
Qed.

Lemma Map_get_delete_same {V} (m : Map V) (k : jsstring) :
  NoDup (map fst m) -> Map_get (Map_delete m k) k = None.
Proof.
  induction m as [|[k0 v0] m IH]; simpl; intros ND; [reflexivity|].
  inversion ND as [|? ? Hk ND']; subst.
  destruct (jseqb k0 k) eqn:E.
  - apply jseqb_eq in E. subst k0. now apply Map_get_none.
  - simpl. rewrite E. auto.
Qed.

Lemma Map_get_delete_other {V} (m : Map V) (k k' : jsstring) :
  k <> k' -> Map_get (Map_delete m k) k' = Map_get m k'.
Proof.
  intros N. induction m as [|[k0 v0] m IH]; simpl; [reflexivity|].
  destruct (jseqb k0 k) eqn:E.
  - apply jseqb_eq in E. subst k0. apply jseqb_neq in N. now rewrite N.
  - simpl. destruct (jseqb k0 k'); [reflexivity|exact IH].
Qed.

Lemma Map_set_keys_cases {V} (m : Map V) (k : jsstring) (v : V) :
  map fst (Map_set m k v) = map fst m \/
  (~ In k (map fst m) /\ map fst (Map_set m k v) = map fst m ++ [k]).
Proof.
  destruct (Map_get m k) eqn:G.
  - left. apply Map_set_keys.
    destruct (in_dec (list_eq_dec N.eq_dec) k (map fst m)) as [I|I]; [exact I|].
    apply Map_get_none in I. congruence.
  - right. apply Map_get_none in G. split; [exact G|].
    rewrite (Map_set_new m k v G). rewrite map_app. reflexivity.
Qed.

Lemma plain_set {V} (m : Map V) (k : jsstring) (v : V) :
  plain m -> array_index k = None -> plain (Map_set m k v).
Proof.
  intros [ND Hi] Hk. unfold plain.
  destruct (Map_set_keys_cases m k v) as [E|[N E]]; rewrite E; [now split|].
  split.
  - apply NoDup_app; [assumption|repeat constructor; simpl; tauto|].
    intros x Hx [<-|[]]. contradiction.
  - intros x Hx. apply in_app_iff in Hx as [Hx|[<-|[]]]; auto.
Qed.

Lemma plain_delete {V} (m : Map V) (k : jsstring) : plain m -> plain (Map_delete m k).
Proof.
  intros [ND Hi]. split; [now apply Map_delete_NoDup|].
  intros x Hx. apply Hi. eapply Map_delete_keys; eauto.
Qed.

Lemma Map_get_amended (m : Map Command.t) (k : jsstring) :
  Map_get (map amended m) k
  = option_map (fun v => snd (amended (k, v))) (Map_get m k).
Proof.
  induction m as [|[k0 v0] m IH]; [reflexivity|]. cbn [map Map_get].
  destruct (amended (k0, v0)) as [k1 v1] eqn:A.
  pose proof (amended_key (k0, v0)) as K. rewrite A in K. simpl in K. subst k1.
  destruct (jseqb k0 k) eqn:E; [|exact IH].
  apply jseqb_eq in E. subst k0. cbn [option_map]. now rewrite A.
Qed.

(** ** Saving and loading *)

Lemma amended_settles (entry : jsstring * Command.t) :
  outdated (amended entry) = false.
Proof.
  destruct entry as [k v]. unfold amended.
  destruct (outdated (k, v)) eqn:O; [|exact O].
  unfold outdated. cbn [fst snd].
  destruct (jseqb k (js "d")); [reflexivity|]. apply andb_false_r.
Qed.

Lemma amended_current (entry : jsstring * Command.t) :
  outdated entry = false -> amended entry = entry.
Proof.
  destruct entry as [k v]. unfold amended. now intros ->.
Qed.

Lemma amended_all_current (m : Map Command.t) :
  existsb outdated m = false -> map amended m = m.
Proof.
  induction m as [|e m IH]; simpl; [reflexivity|].
  intros H. apply orb_false_iff in H as [He Hm].
  now rewrite (amended_current e He), IH.
Qed.

Lemma amended_all_settled (m : Map Command.t) :
  existsb outdated (map amended m) = false.
Proof.
  induction m as [|e m IH]; simpl; [reflexivity|].
  now rewrite amended_settles, IH.
Qed.

Lemma pageLoad_parsed (s : Storage.t) (obj : Object Command.t) :
  Storage.commands s = Some (Json obj) ->
  NoDup (map fst obj) ->
  State.COMMANDS (pageLoad s) = map amended obj.
Proof.
  intros Hs ND. unfold pageLoad.
  rewrite (loadCommands_parsed _ (Json obj) obj); [reflexivity| |reflexivity|exact ND].
  exact Hs.
Qed.

(** X11. Loading twice is loading once: the templates that a load adds to
    an old document are written back with it, so that the next load finds
    nothing to amend. *)
Theorem loadCommands_idempotent (st : State.t) :
  (forall obj, Storage.commands (State.localStorage st) = Some (Json obj) ->
               NoDup (map fst obj)) ->
  loadCommands (loadCommands st) = loadCommands st.
Proof.
  intros WF.
  destruct (Storage.commands (State.localStorage st)) as [[obj| |]|] eqn:S.
  - pose proof (WF obj eq_refl) as ND.
    rewrite (loadCommands_parsed st (Json obj) obj S eq_refl ND).
    assert (ND' : NoDup (map fst (map amended obj))).
    { rewrite map_map. rewrite (map_ext _ fst) by apply amended_key. exact ND. }
    destruct (existsb outdated obj) eqn:O.
    + rewrite (loadCommands_parsed _ (Json (map amended obj)) (map amended obj));
        [|reflexivity|reflexivity|exact ND'].
      simpl. rewrite amended_all_settled.
      rewrite (amended_all_current (map amended obj) (amended_all_settled obj)).
      reflexivity.
    + rewrite (amended_all_current obj O).
      rewrite (loadCommands_parsed _ (Json obj) obj); [|exact S|reflexivity|exact ND].
      simpl. rewrite O. now rewrite (amended_all_current obj O).
  - unfold loadCommands at 2. rewrite S. simpl.
    unfold loadCommands. now rewrite S.
  - unfold loadCommands at 2. rewrite S. simpl.
    unfold loadCommands. now rewrite S.
  - unfold loadCommands at 2. rewrite S.
    unfold loadCommands. now rewrite S.
Qed.

Lemma loadCommands_idempotent_witness :
  let st := State.mk (Storage.mk None None None (Some (Json [(js "gh", old_github)])))
              CONFIG COMMANDS in
  loadCommands (loadCommands st) = loadCommands st.
Proof.
  apply loadCommands_idempotent.
  intros obj [= <-]. repeat constructor. simpl. tauto.
Defined.

(** X12. What is stored is the source of truth: after a load of a document
    that parses, the commands in memory are the entries of the document, in
    its order and amended, and nothing of what was in memory before, the
    built-in commands included, is kept. *)
Theorem loaded_store_is_the_document (st : State.t) (obj : Object Command.t)
    (k : jsstring) :
  Storage.commands (State.localStorage st) = Some (Json obj) ->
  NoDup (map fst obj) ->
  map fst (State.COMMANDS (loadCommands st)) = map fst obj /\
  Map_get (State.COMMANDS (loadCommands st)) k
  = option_map (fun v => snd (amended (k, v))) (Map_get obj k).
Proof.
  intros S ND. rewrite (loadCommands_parsed st (Json obj) obj S eq_refl ND). simpl.
  split; [|apply Map_get_amended].
  rewrite map_map. apply map_ext. apply amended_key.
Qed.

Lemma loaded_store_is_the_document_witness :
  Map_get
    (State.COMMANDS
       (loadCommands (State.mk (Storage.mk None None None (Some (Json [])))
                        CONFIG COMMANDS)))
    (js "g")
  = None.
Proof.
  exact (proj2 (loaded_store_is_the_document
    (State.mk (Storage.mk None None None (Some (Json []))) CONFIG COMMANDS)
    [] (js "g") eq_refl (NoDup_nil _))).
Defined.

(** X13. Saving and loading again gives back the commands as they were,
    when none of their keys is an array index and neither [d] nor [gh] lacks
    a search template: the state after the load is the state after the
    save. *)
Theorem save_then_load (st : State.t) :
  plain (State.COMMANDS st) ->
  existsb outdated (State.COMMANDS st) = false ->
  loadCommands (saveCommands st) = saveCommands st /\
  State.COMMANDS (loadCommands (saveCommands st)) = State.COMMANDS st.
Proof.
  intros [ND Hi] O.
  assert (E : loadCommands (saveCommands st) = saveCommands st).
  { rewrite (loadCommands_parsed (saveCommands st)
               (Json (State.COMMANDS st)) (State.COMMANDS st)).
    - rewrite O, (amended_all_current _ O).
      unfold saveCommands, setStorage. simpl.
      now rewrite (Object_fromEntries_plain _ ND Hi).
    - unfold saveCommands, setStorage, storeCommands, JSON_stringify. simpl.
      now rewrite (Object_fromEntries_plain _ ND Hi).
    - reflexivity.
    - exact ND. }
  split; [exact E|]. now rewrite E.
Qed.

Lemma save_then_load_witness :
  State.COMMANDS (loadCommands (saveCommands (pageLoad Storage.empty))) = COMMANDS.
Proof.
  refine (proj2 (save_then_load (pageLoad Storage.empty) _ eq_refl)).
  split.
  - vm_compute. repeat constructor; simpl; intuition discriminate.
  - intros k H. vm_compute in H.
    repeat (destruct H as [<-|H]; [reflexivity|]). contradiction.
Defined.

(** ** The dialogs *)

Lemma withProtocol_prefixed (v : jsstring) :
  startsWith (withProtocol v) (js "http://") || startsWith (withProtocol v) (js "https://")
  = true.
Proof.
  unfold withProtocol.
  destruct (startsWith v (js "http://")) eqn:A; cbn [negb andb].
  - now rewrite A.
  - destruct (startsWith v (js "https://")) eqn:B; cbn [negb].
    + now rewrite A, B.
    + apply orb_true_iff. right. now destruct v.
Qed.

Lemma saveCommands_persisted (st : State.t) : persisted (saveCommands st).
Proof. reflexivity. Qed.

(** X14. The add dialog either changes nothing and reports failure, or
    stores under the key as typed a command made of the name as typed and of
    the trimmed URL, which then begins with [http://] or [https://], and
    of nothing else (a command that was under the key loses its search
    template and its suggestions); it leaves every other key alone and
    persists the commands. *)
Theorem createNewShortcut_outcome (k n v : jsstring) (answer : bool) (st : State.t) :
  (fst (createNewShortcut k n v answer st) = false ->
   snd (createNewShortcut k n v answer st) = st) /\
  (fst (createNewShortcut k n v answer st) = true ->
   Map_get (State.COMMANDS (snd (createNewShortcut k n v answer st))) k
   = Some (Command.mk n (withProtocol (trim v)) None None None) /\
   startsWith (withProtocol (trim v)) (js "http://")
   || startsWith (withProtocol (trim v)) (js "https://") = true /\
   persisted (snd (createNewShortcut k n v answer st)) /\
   forall k', k <> k' ->
     Map_get (State.COMMANDS (snd (createNewShortcut k n v answer st))) k'
     = Map_get (State.COMMANDS st) k').
Proof.
  unfold createNewShortcut.
  destruct (truthy k && truthy n && truthy v); [|split; [reflexivity|discriminate]].
  destruct (Map_has (State.COMMANDS st) k && negb answer);
    [split; [reflexivity|discriminate]|].
  split; [discriminate|]. intros _. cbn [fst snd]. repeat split.
  - apply Map_get_set_same.
  - apply withProtocol_prefixed.
  - intros k' N. now apply Map_get_set_other.
Qed.

Lemma createNewShortcut_outcome_witness :
  Map_get
    (State.COMMANDS
       (snd (createNewShortcut (js "y") (js "Yoga") (js " yoga.example ") true
               (pageLoad Storage.empty))))
    (js "y")
  = Some (Command.mk (js "Yoga") (js "https://yoga.example") None None None).
Proof.
  exact (proj1 (proj2 (createNewShortcut_outcome (js "y") (js "Yoga")
    (js " yoga.example ") true (pageLoad Storage.empty)) eq_refl)).
Defined.

(** X15. Without the user's confirmation neither dialog alters a shortcut
    that exists: the add dialog leaves every stored command as it is, and
    the edit dialog every stored command but the one being edited. *)
Theorem no_overwrite_without_confirmation (key : jsstring) (value : Command.t)
    (k n v : jsstring) (st : State.t) (k' : jsstring) (value' : Command.t) :
  Map_get (State.COMMANDS st) k' = Some value' ->
  Map_get (State.COMMANDS (snd (createNewShortcut k n v false st))) k' = Some value' /\
  (key <> k' ->
   Map_get (State.COMMANDS (snd (saveEditedShortcut key value k n v false st))) k'
   = Some value').
Proof.
  intros G. split.
  - unfold createNewShortcut.
    destruct (truthy k && truthy n && truthy v); [|exact G].
    unfold Map_has. destruct (Map_get (State.COMMANDS st) k) eqn:Gk; [exact G|].
    cbn [andb snd]. unfold saveCommands, setCommands, setStorage. simpl.
    rewrite Map_get_set_other; [exact G|]. intros ->. congruence.
  - intros N. unfold saveEditedShortcut.
    destruct (negb (truthy (trim k)) || negb (truthy (trim n)) || negb (truthy (trim v)));
      [exact G|].
    destruct (jseqb (trim k) key) eqn:E; cbn [negb andb].
    + apply jseqb_eq in E. unfold saveCommands, setCommands, setStorage. simpl.
      rewrite Map_get_set_other; [exact G|]. now rewrite E.
    + unfold Map_has. destruct (Map_get (State.COMMANDS st) (trim k)) eqn:Gk;
        [exact G|].
      cbn [andb snd]. unfold saveCommands, setCommands, setStorage. simpl.
      rewrite Map_get_set_other; [|intros F; rewrite F in Gk; congruence].
      rewrite Map_get_delete_other; [exact G|exact N].
Qed.

Lemma no_overwrite_without_confirmation_witness :
  Map_get
    (State.COMMANDS
       (snd (createNewShortcut (js "y") (js "Yoga") (js "yoga.example") false
               (pageLoad Storage.empty))))
    (js "y")
  = Map_get COMMANDS (js "y").
Proof.
  exact (proj1 (no_overwrite_without_confirmation (js "g")
    (command "Gmail" "https://mail.google.com/mail/u/0/#inbox" None None)
    (js "y") (js "Yoga") (js "yoga.example") (pageLoad Storage.empty) (js "y")
    (command "YouTube" "https://youtube.com/"
       (Some "/results?search_query={}") (Some ["y/feed/subscriptions"]))
    eq_refl)).
Defined.

(** X16. A successful edit stores under the trimmed key the trimmed name
    and the trimmed URL behind its protocol, with the search template, the
    suggestions and the redirection that the entry had, and persists the
    commands. When the key has changed the entry is gone from its old key;
    when it has not, the commands keep their order. *)
Theorem saveEditedShortcut_outcome (key : jsstring) (value : Command.t)
    (k n v : jsstring) (answer : bool) (st : State.t) :
  fst (saveEditedShortcut key value k n v answer st) = true ->
  Map_get (State.COMMANDS (snd (saveEditedShortcut key value k n v answer st))) (trim k)
  = Some (Command.mk (trim n) (withProtocol (trim v)) (Command.searchTemplate value)
            (Command.suggestions value) (Command.command value)) /\
  persisted (snd (saveEditedShortcut key value k n v answer st)) /\
  (trim k <> key -> NoDup (map fst (State.COMMANDS st)) ->
   Map_get (State.COMMANDS (snd (saveEditedShortcut key value k n v answer st))) key
   = None) /\
  (trim k = key -> In key (map fst (State.COMMANDS st)) ->
   map fst (State.COMMANDS (snd (saveEditedShortcut key value k n v answer st)))
   = map fst (State.COMMANDS st)).
Proof.
  unfold saveEditedShortcut.
  destruct (negb (truthy (trim k)) || negb (truthy (trim n)) || negb (truthy (trim v)));
    [discriminate|].
  destruct (negb (jseqb (trim k) key) && Map_has (State.COMMANDS st) (trim k)
            && negb answer); [discriminate|].
  intros _. cbn [fst snd]. repeat split.
  - apply Map_get_set_same.
  - intros N ND. apply jseqb_neq in N. rewrite N. cbn [negb].
    unfold saveCommands, setCommands, setStorage. simpl.
    rewrite Map_get_set_other; [now apply Map_get_delete_same|].
    apply jseqb_neq. exact N.
  - intros E I. rewrite E, jseqb_refl. cbn [negb].
    unfold saveCommands, setCommands, setStorage. simpl.
    now apply Map_set_keys.
Qed.

Lemma saveEditedShortcut_outcome_witness :
  let value := command "YouTube" "https://youtube.com/"
                 (Some "/results?search_query={}") (Some ["y/feed/subscriptions"]) in
  let st' := snd (saveEditedShortcut (js "y") value (js " yt ") (js "Tube")
                    (js "youtube.com") false (pageLoad Storage.empty)) in
  Map_get (State.COMMANDS st') (js "yt")
  = Some (command "Tube" "https://youtube.com"
            (Some "/results?search_query={}") (Some ["y/feed/subscriptions"])).
Proof.
  exact (proj1 (saveEditedShortcut_outcome (js "y")
    (command "YouTube" "https://youtube.com/"
       (Some "/results?search_query={}") (Some ["y/feed/subscriptions"]))
    (js " yt ") (js "Tube") (js "youtube.com") false (pageLoad Storage.empty)
    eq_refl)).
Defined.

(** ** Across a reload *)

Lemma saved_then_reloaded (st : State.t) :
  plain (State.COMMANDS st) ->
  State.COMMANDS (pageLoad (State.localStorage (saveCommands st)))
  = map amended (State.COMMANDS st).
Proof.
  intros [ND Hi]. apply pageLoad_parsed; [|exact ND].
  unfold saveCommands, setStorage, storeCommands, JSON_stringify. simpl.
  now rewrite (Object_fromEntries_plain _ ND Hi).
Qed.

(** X17. A shortcut that has been deleted stays deleted after a reload, a
    built-in one too, and the reload brings back every other shortcut,
    amended: nothing is restored from the built-in set. *)
Theorem deleted_shortcut_stays_deleted (key k' : jsstring) (st : State.t) :
  plain (State.COMMANDS st) ->
  Map_get (State.COMMANDS (pageLoad (State.localStorage (deleteShortcut key true st)))) key
  = None /\
  (key <> k' ->
   Map_get (State.COMMANDS (pageLoad (State.localStorage (deleteShortcut key true st)))) k'
   = option_map (fun v => snd (amended (k', v))) (Map_get (State.COMMANDS st) k')).
Proof.
  intros P. unfold deleteShortcut.
  rewrite (saved_then_reloaded (setCommands st (Map_delete (State.COMMANDS st) key)));
    [|now apply plain_delete].
  simpl. rewrite !Map_get_amended. split.
  - rewrite Map_get_delete_same; [reflexivity|apply P].
  - intros N. now rewrite Map_get_delete_other.
Qed.

Lemma plain_builtin : plain COMMANDS.
Proof.
  split.
  - vm_compute. repeat constructor; simpl; intuition discriminate.
  - intros k H. vm_compute in H.
    repeat (destruct H as [<-|H]; [reflexivity|]). contradiction.
Qed.

Lemma deleted_shortcut_stays_deleted_witness :
  Map_get
    (State.COMMANDS
       (pageLoad (State.localStorage (deleteShortcut (js "g") true (pageLoad Storage.empty)))))
    (js "g")
  = None.
Proof.
  exact (proj1 (deleted_shortcut_stays_deleted (js "g") (js "y")
                  (pageLoad Storage.empty) plain_builtin)).
Defined.

(** *** Objects made of entries, whatever the keys *)

Lemma Map_set_NoDup {V} (m : Map V) (k : jsstring) (v : V) :
  NoDup (map fst m) -> NoDup (map fst (Map_set m k v)).
Proof.
  intros ND. destruct (Map_set_keys_cases m k v) as [E|[N E]]; rewrite E; [exact ND|].
  apply NoDup_app; [assumption|repeat constructor; simpl; tauto|].
  intros x Hx [<-|[]]. contradiction.
Qed.

Lemma Map_get_app_last {V} (o : Object V) (k k' : jsstring) (v : V) :
  Map_get o k = None ->
  Map_get (o ++ [(k, v)]) k' = if jseqb k k' then Some v else Map_get o k'.
Proof.
  induction o as [|[k0 v0] o IH]; simpl; [reflexivity|].
  destruct (jseqb k0 k) eqn:E; [discriminate|]. intros G.
  destruct (jseqb k0 k') eqn:E'; [|auto].
  destruct (jseqb k k') eqn:E''; [|reflexivity].
  apply jseqb_eq in E', E''. subst. now rewrite jseqb_refl in E.
Qed.

Lemma insert_index_get {V} (n : N) (o : Object V) (k k' : jsstring) (v : V) :
  Map_get o k = None ->
  Map_get (insert_index n k v o) k' = if jseqb k k' then Some v else Map_get o k'.
Proof.
  induction o as [|[k0 v0] o IH]; cbn [insert_index Map_get]; [reflexivity|].
  destruct (jseqb k0 k) eqn:E; [discriminate|]. intros G.
  destruct (array_index k0) as [n'|]; [destruct (N.ltb n' n)|]; cbn [Map_get];
    try reflexivity.
  destruct (jseqb k0 k') eqn:E'; [|auto].
  destruct (jseqb k k') eqn:E''; [|reflexivity].
  apply jseqb_eq in E', E''. subst. now rewrite jseqb_refl in E.
Qed.

Lemma insert_index_keys {V} (n : N) (o : Object V) (k x : jsstring) (v : V) :
  In x (map fst (insert_index n k v o)) <-> x = k \/ In x (map fst o).
Proof.
  induction o as [|[k0 v0] o IH]; cbn [insert_index map fst In].
  - intuition.
  - destruct (array_index k0) as [n'|]; [destruct (N.ltb n' n)|];
      cbn [map fst In]; rewrite ?IH; intuition.
Qed.

Lemma insert_index_NoDup {V} (n : N) (o : Object V) (k : jsstring) (v : V) :
  NoDup (map fst o) -> ~ In k (map fst o) ->
  NoDup (map fst (insert_index n k v o)).
Proof.
  induction o as [|[k0 v0] o IH]; cbn [insert_index map fst]; intros ND Hk.
  - constructor; [tauto|constructor].
  - assert (whole : NoDup (k :: k0 :: map fst o)) by now constructor.
    destruct (array_index k0) as [n'|]; [destruct (N.ltb n' n)|]; try exact whole.
    cbn [map fst]. inversion ND as [|? ? H0 ND']; subst.
    constructor.
    + rewrite insert_index_keys. intros [F|F]; [|contradiction].
      apply Hk. left. now symmetry.
    + apply IH; [assumption|]. intros F. apply Hk. now right.
Qed.

Lemma Object_define_get {V} (o : Object V) (k k' : jsstring) (v : V) :
  Map_get (Object_define o k v) k' = if jseqb k k' then Some v else Map_get o k'.
Proof.
  unfold Object_define, Map_has. destruct (Map_get o k) as [v0|] eqn:G.
  - destruct (jseqb k k') eqn:E.
    + apply jseqb_eq in E. subst k'. apply Map_get_set_same.
    + apply jseqb_neq in E. now apply Map_get_set_other.
  - destruct (array_index k); [now apply insert_index_get|now apply Map_get_app_last].
Qed.

Lemma Object_define_NoDup {V} (o : Object V) (k : jsstring) (v : V) :
  NoDup (map fst o) -> NoDup (map fst (Object_define o k v)).
Proof.
  intros ND. unfold Object_define, Map_has. destruct (Map_get o k) as [v0|] eqn:G.
  - now apply Map_set_NoDup.
  - apply Map_get_none in G. destruct (array_index k).
    + now apply insert_index_NoDup.
    + rewrite map_app. cbn [map fst]. apply NoDup_app; [exact ND| |].
      * constructor; [tauto|constructor].
      * intros x Hx [<-|[]]. contradiction.
Qed.

Lemma Object_fromEntries_loop {V} (m : Map V) (acc : Object V) :
  NoDup (map fst m) -> NoDup (map fst acc) ->
  NoDup (map fst (fold_left (fun o kv => Object_define o (fst kv) (snd kv)) m acc)) /\
  forall k,
    Map_get (fold_left (fun o kv => Object_define o (fst kv) (snd kv)) m acc) k
    = match Map_get m k with Some v => Some v | None => Map_get acc k end.
Proof.
  revert acc. induction m as [|[k0 v0] m IH]; intros acc ND NDacc; cbn [fold_left].
  - split; [exact NDacc|reflexivity].
  - inversion ND as [|? ? Hk ND']; subst. cbn [fst snd].
    destruct (IH (Object_define acc k0 v0) ND' (Object_define_NoDup acc k0 v0 NDacc))
      as [N G].
    split; [exact N|]. intros k. rewrite G, Object_define_get. cbn [Map_get].
    destruct (jseqb k0 k) eqn:E; [|reflexivity].
    apply jseqb_eq in E. subst k0. apply Map_get_none in Hk. now rewrite Hk.
Qed.

(** An object made of the entries of a map has one property for each key of
    the map, with the value of the key, whatever the order it lists them
    in. *)
Lemma Object_fromEntries_get {V} (m : Map V) :
  NoDup (map fst m) ->
  NoDup (map fst (Object_fromEntries m)) /\
  forall k, Map_get (Object_fromEntries m) k = Map_get m k.
Proof.
  intros ND. destruct (Object_fromEntries_loop m [] ND (NoDup_nil _)) as [N G].
  split; [exact N|]. intros k. unfold Object_fromEntries. rewrite G.
  now destruct (Map_get m k).
Qed.

(** X18. A shortcut made in the add dialog comes back from a reload as it
    was made, unless its key is [d] or [gh]: under these keys it comes back
    with the search template of Dropbox or of GitHub, whatever site it points
    to. This holds for every key, an array index too, and whatever the other
    keys are. *)
Theorem created_shortcut_after_reload (k n v : jsstring) (answer : bool)
    (st : State.t) :
  NoDup (map fst (State.COMMANDS st)) ->
  fst (createNewShortcut k n v answer st) = true ->
  Map_get
    (State.COMMANDS
       (pageLoad (State.localStorage (snd (createNewShortcut k n v answer st))))) k
  = Some (Command.mk n (withProtocol (trim v))
            (if jseqb k (js "d")
             then Some (Single (js "/search/work?path=%2F&query={}"))
             else if jseqb k (js "gh") then Some (Single (js "/search?q={}"))
             else None)
            None None).
Proof.
  intros ND. unfold createNewShortcut.
  destruct (truthy k && truthy n && truthy v); [|discriminate].
  destruct (Map_has (State.COMMANDS st) k && negb answer); [discriminate|].
  intros _. cbn [snd].
  set (new := Command.mk n (withProtocol (trim v)) None None None).
  destruct (Object_fromEntries_get (Map_set (State.COMMANDS st) k new)
              (Map_set_NoDup _ k new ND)) as [N G].
  rewrite (pageLoad_parsed _ (Object_fromEntries (Map_set (State.COMMANDS st) k new)));
    [|reflexivity|exact N].
  rewrite Map_get_amended, G, Map_get_set_same. cbn [option_map].
  unfold amended, outdated, new. cbn [fst snd Command.searchTemplate template_truthy negb].
  rewrite andb_true_r.
  destruct (jseqb k (js "d")); [reflexivity|].
  destruct (jseqb k (js "gh")); reflexivity.
Qed.

Lemma created_shortcut_after_reload_witness :
  Map_get
    (State.COMMANDS
       (pageLoad (State.localStorage
          (snd (createNewShortcut (js "7") (js "Seven") (js "seven.example") true
                  (snd (createNewShortcut (js "gh") (js "Ghost") (js "ghost.example")
                          true (pageLoad Storage.empty))))))))
    (js "7")
  = Some (command "Seven" "https://seven.example" None None).
Proof.
  refine (created_shortcut_after_reload (js "7") (js "Seven") (js "seven.example") true
           (snd (createNewShortcut (js "gh") (js "Ghost") (js "ghost.example")
                   true (pageLoad Storage.empty))) _ eq_refl).
  vm_compute. repeat constructor; simpl; intuition discriminate.
Defined.

(** ** Reset and import *)

(** X19. A confirmed reset leads to one and the same state from every state:
    the theme preference [system], links opening in the current tab, Google
    as the search engine, the commands of [DEFAULT_SETTINGS], all of it
    stored. That state is not the state of a first visit, where links open
    in a new tab and GitHub has another search template. *)
Theorem resetSettings_outcome (st : State.t) :
  resetSettings true st =
    State.mk
      (Storage.mk (Some (js "system")) (Some (js "current")) (Some (js "google"))
         (Some (Json DEFAULT_COMMANDS)))
      (Config.mk false (js "google") (Some (js "https://www.google.com/search?q={}")))
      DEFAULT_COMMANDS /\
  observe (resetSettings true st) <> observe (pageLoad Storage.empty) /\
  Map_get (State.COMMANDS (resetSettings true st)) (js "gh")
  <> Map_get (State.COMMANDS (pageLoad Storage.empty)) (js "gh").
Proof.
  assert (E : resetSettings true st =
    State.mk
      (Storage.mk (Some (js "system")) (Some (js "current")) (Some (js "google"))
         (Some (Json DEFAULT_COMMANDS)))
      (Config.mk false (js "google") (Some (js "https://www.google.com/search?q={}")))
      DEFAULT_COMMANDS) by reflexivity.
  rewrite E. split; [reflexivity|]. split.
  - intros H. apply (f_equal (fun o => snd (fst (fst o)))) in H. discriminate.
  - vm_compute. discriminate.
Qed.

(** X20. An import that is not confirmed, or of a text that does not parse,
    changes nothing; and so does the choice of no file. *)
Theorem import_rejected_changes_nothing (file : option (text Settings.t))
    (confirmImport : bool) (st : State.t) :
  file = None \/ confirmImport = false \/ file = Some Empty \/ file = Some Garbled ->
  handleImportFile file confirmImport st = st.
Proof.
  intros [-> | [-> | [-> | ->]]]; unfold handleImportFile.
  - reflexivity.
  - now destruct file.
  - now destruct confirmImport.
  - now destruct confirmImport.
Qed.

Lemma import_rejected_changes_nothing_witness :
  handleImportFile (Some Garbled) true (pageLoad Storage.empty) = pageLoad Storage.empty.
Proof.
  apply import_rejected_changes_nothing. right. right. now right.
Defined.

(** X21. A confirmed import of a document that holds commands and nothing
    else replaces the commands by the entries of the document, in its order
    and with nothing kept of the commands before, stores them, and leaves
    the theme, the tab behaviour and the search engine as they were. *)
Theorem import_replaces_commands (commands : Object Command.t) (st : State.t) :
  NoDup (map fst commands) ->
  handleImportFile (Some (Json (Settings.mk None None None (Some commands)))) true st
  = State.mk
      (storeCommands (State.localStorage st)
         (JSON_stringify (Object_fromEntries commands)))
      (State.CONFIG st) commands.
Proof.
  intros ND. unfold handleImportFile. simpl.
  unfold saveCommands, setCommands, setStorage, Object_entries, Map_clear. simpl.
  now rewrite (setAll_empty commands ND).
Qed.

Lemma import_replaces_commands_witness :
  State.COMMANDS
    (handleImportFile
       (Some (Json (Settings.mk None None None (Some [(js "w", site "Wiki")]))))
       true (pageLoad Storage.empty))
  = [(js "w", site "Wiki")].
Proof.
  refine (f_equal State.COMMANDS
    (import_replaces_commands [(js "w", site "Wiki")] (pageLoad Storage.empty) _)).
  repeat constructor. simpl. tauto.
Defined.

Lemma loadCommands_config (st : State.t) :
  State.CONFIG (loadCommands st) = State.CONFIG st.
Proof.
  unfold loadCommands.
  destruct (Storage.commands (State.localStorage st)) as [t|]; [|reflexivity].
  destruct (text_truthy t); cbn [negb]; [|reflexivity].
  destruct (JSON_parse t) as [obj|]; [|reflexivity].
  destruct (fold_left loadEntry (Object_entries obj)
              (Map_clear (State.COMMANDS st), obj, false)) as [[c o] u].
  now destruct u.
Qed.

Lemma pageLoad_config (s : Storage.t) : State.CONFIG (pageLoad s) = init s.
Proof. unfold pageLoad. now rewrite loadCommands_config. Qed.

(** X22. An import takes any search engine that is not the empty string.
    For a name that has no template and is no name inherited from
    [Object.prototype], the default search is left without a template until
    the page is loaded again, when [init] ignores the stored name and
    searches with Google. *)
Theorem import_unknown_engine (engine : jsstring) (st : State.t) :
  engine <> [] ->
  searchEngineTemplates engine = None ->
  ~ In engine Object_prototype ->
  let st' := handleImportFile
               (Some (Json (Settings.mk None None (Some engine) None))) true st in
  Config.defaultSearchEngine (State.CONFIG st') = engine /\
  Config.defaultSearchTemplate (State.CONFIG st') = None /\
  Storage.searchEngine (State.localStorage st') = Some engine /\
  Config.defaultSearchEngine (State.CONFIG (pageLoad (State.localStorage st')))
  = js "google" /\
  Config.defaultSearchTemplate (State.CONFIG (pageLoad (State.localStorage st')))
  = Some (js "https://www.google.com/search?q={}").
Proof.
  intros N T _. destruct engine as [|e0 engine']; [contradiction|].
  cbv zeta. unfold handleImportFile. cbn [JSON_parse negb Settings.theme
    Settings.tabBehavior Settings.searchEngine Settings.commands].
  cbn [State.CONFIG State.localStorage Config.defaultSearchEngine
       Config.defaultSearchTemplate].
  repeat split; try assumption.
  - rewrite pageLoad_config. unfold init. simpl. now rewrite T.
  - rewrite pageLoad_config. unfold init. simpl. now rewrite T.
Qed.

Lemma import_unknown_engine_witness :
  Config.defaultSearchTemplate
    (State.CONFIG
       (handleImportFile (Some (Json (Settings.mk None None (Some (js "bing")) None)))
          true (pageLoad Storage.empty)))
  = None.
Proof.
  refine (proj1 (proj2 (import_unknown_engine (js "bing") (pageLoad Storage.empty)
                          _ eq_refl _))).
  - discriminate.
  - vm_compute. intuition discriminate.
Defined.

(** ** What every state satisfies *)

Lemma includes_In (l : list jsstring) (x : jsstring) : includes l x = true <-> In x l.
Proof.
  unfold includes. rewrite existsb_exists. split.
  - intros (y & Hy & E). apply jseqb_eq in E. now subst y.
  - intros H. exists x. split; [exact H|apply jseqb_refl].
Qed.

Lemma normalizeThemePreference_valid (preference : jsstring) :
  In (normalizeThemePreference preference) VALID_THEMES.
Proof.
  unfold normalizeThemePreference.
  destruct (includes VALID_THEMES preference) eqn:E; [now apply includes_In|now left].
Qed.

Lemma imported_theme_valid (theme : jsstring) (s : Storage.t) :
  let safeTheme :=
    if includes [js "system"; js "dark"; js "light"; js "void"; js "dark-abyss"] theme
    then theme else js "system" in
  exists t, Storage.selectedTheme (applyThemePreference safeTheme s) = Some t
            /\ In t VALID_THEMES.
Proof.
  cbv zeta. destruct (includes _ theme) eqn:E.
  - apply includes_In in E. simpl in E.
    destruct E as [<-|[<-|[<-|[<-|[<-|[]]]]]]; eexists; (split; [reflexivity|]);
      vm_compute; tauto.
  - eexists. split; [reflexivity|]. now left.
Qed.

Lemma setAll_NoDup {V} (es : list (jsstring * V)) (m : Map V) :
  NoDup (map fst m) -> NoDup (map fst (setAll es m)).
Proof.
  revert m. induction es as [|[k v] es IH]; intros m ND; [exact ND|].
  unfold setAll in *. simpl. apply IH. now apply Map_set_NoDup.
Qed.

Lemma loadCommands_keeps (st : State.t) :
  Storage.selectedTheme (State.localStorage (loadCommands st))
  = Storage.selectedTheme (State.localStorage st) /\
  (NoDup (map fst (State.COMMANDS st)) ->
   NoDup (map fst (State.COMMANDS (loadCommands st)))).
Proof.
  unfold loadCommands.
  destruct (Storage.commands (State.localStorage st)) as [t|]; [|now split].
  destruct (text_truthy t); cbn [negb]; [|now split].
  destruct (JSON_parse t) as [obj|]; [|now split].
  unfold Object_entries, Map_clear. rewrite load_loop.
  destruct (false || existsb outdated obj); simpl; (split; [reflexivity|]);
    intros _; apply setAll_NoDup; constructor.
Qed.

Lemma invariant_pageLoad (s : Storage.t) : invariant (pageLoad s).
Proof.
  unfold invariant. rewrite pageLoad_config. unfold pageLoad.
  destruct (loadCommands_keeps (loadTheme (State.mk s (init s) COMMANDS))) as [T N].
  rewrite T. repeat split.
  - eexists. split; [reflexivity|apply normalizeThemePreference_valid].
  - apply N. apply plain_builtin.
Qed.

Lemma invariant_saved (st : State.t) (m : Map Command.t) :
  invariant st -> NoDup (map fst m) -> invariant (saveCommands (setCommands st m)).
Proof.
  intros (T & C & _) ND. repeat split; assumption.
Qed.

Lemma invariant_import (file : option (text Settings.t)) (answer : bool)
    (st : State.t) :
  invariant st -> invariant (handleImportFile file answer st).
Proof.
  intros I. unfold handleImportFile.
  destruct file as [result|]; [|exact I].
  destruct answer; cbn [negb]; [|exact I].
  destruct (JSON_parse result) as [[theme tab engine commands]|]; [|exact I].
  cbn [Settings.theme Settings.tabBehavior Settings.searchEngine Settings.commands].
  set (st1 := match theme with
              | Some ((_ :: _) as theme) => _
              | _ => st
              end).
  assert (I1 : invariant st1).
  { subst st1. destruct theme as [[|t0 theme']|]; try exact I;
      destruct I as (_ & C & N); (split; [|now split]);
      apply (imported_theme_valid (t0 :: theme')). }
  clearbody st1. clear I st.
  set (st2 := match tab with
              | Some ((_ :: _) as tabBehavior) => _
              | _ => st1
              end).
  assert (I2 : invariant st2).
  { subst st2. destruct tab as [[|b0 tab']|]; exact I1. }
  clearbody st2. clear I1 st1.
  set (st3 := match engine with
              | Some ((_ :: _) as searchEngine) => _
              | _ => st2
              end).
  assert (I3 : invariant st3).
  { subst st3. destruct engine as [[|e0 engine']|]; try exact I2;
      destruct I2 as (T & C & N); repeat split; assumption. }
  clearbody st3. clear I2 st2.
  destruct commands as [commands|]; [|exact I3].
  apply invariant_saved; [exact I3|]. apply setAll_NoDup. constructor.
Qed.

(** X23. In every state that the page can be in, from a first visit on and
    through every change of a setting, every addition, edit and deletion of
    a shortcut, every reset, import and reload, a valid theme preference is
    stored, the search template in force is the one of the search engine in
    force, and no key has two commands. *)
Theorem reachable_invariant (st : State.t) : reachable st -> invariant st.
Proof.
  induction 1 as [|st R IH|st theme R IH|st behavior R IH Hb|st engine R IH He
                  |st k n v answer R IH|st key value k n v answer R IH G
                  |st key answer R IH|st answer R IH|st file answer R IH].
  - apply invariant_pageLoad.
  - apply invariant_pageLoad.
  - destruct IH as (_ & C & N). repeat split; try assumption.
    eexists. split; [reflexivity|apply normalizeThemePreference_valid].
  - destruct IH as (T & C & N). repeat split; assumption.
  - destruct IH as (T & C & N). repeat split; assumption.
  - unfold createNewShortcut.
    destruct (truthy k && truthy n && truthy v); [|exact IH].
    destruct (Map_has (State.COMMANDS st) k && negb answer); [exact IH|].
    cbn [snd]. apply invariant_saved; [exact IH|].
    apply Map_set_NoDup, IH.
  - unfold saveEditedShortcut.
    destruct (negb (truthy (trim k)) || negb (truthy (trim n)) || negb (truthy (trim v)));
      [exact IH|].
    destruct (negb (jseqb (trim k) key) && Map_has (State.COMMANDS st) (trim k)
              && negb answer); [exact IH|].
    cbn [snd]. apply invariant_saved; [exact IH|].
    apply Map_set_NoDup.
    destruct (negb (jseqb (trim k) key)); [apply Map_delete_NoDup|]; apply IH.
  - unfold deleteShortcut. destruct answer; [|exact IH].
    apply invariant_saved; [exact IH|]. apply Map_delete_NoDup, IH.
  - destruct answer; [|exact IH].
    change (resetSettings true st) with
      (State.mk
         (Storage.mk (Some (js "system")) (Some (js "current")) (Some (js "google"))
            (Some (Json DEFAULT_COMMANDS)))
         (Config.mk false (js "google") (Some (js "https://www.google.com/search?q={}")))
         DEFAULT_COMMANDS).
    repeat split.
    + exists (js "system"). split; [reflexivity|now left].
    + vm_compute. repeat constructor; simpl; intuition discriminate.
  - now apply invariant_import.
Qed.

Lemma reachable_invariant_witness :
  invariant
    (handleImportFile (Some (Json (Settings.mk (Some (js "solarized")) None None None)))
       true (pageLoad Storage.empty)).
Proof.
  apply reachable_invariant. apply reach_import. apply reach_first_visit.
Defined.

(** ** The focus among the suggestions *)

(** Moving on and back again brings the focus home. *)
Lemma focusNextSuggestion_back (childElementCount : nat) (active : focus) :
  focus_within childElementCount active ->
  (forall previous,
     focus_within childElementCount
       (focusNextSuggestion childElementCount previous active)) /\
  focusNextSuggestion childElementCount true
    (focusNextSuggestion childElementCount false active) = active /\
  focusNextSuggestion childElementCount false
    (focusNextSuggestion childElementCount true active) = active.
Proof.
  intros W.
  assert (step : forall previous a,
    focus_within childElementCount
      (focusNextSuggestion childElementCount previous a)).
  { intros previous a. unfold focusNextSuggestion.
    match goal with |- context [Z.leb 0 ?z && _] => set (z' := z) end.
    destruct (Z.leb 0 z' && Z.ltb z' (Z.of_nat childElementCount)) eqn:E;
      [|exact I].
    apply andb_true_iff in E. destruct E as [A B].
    apply Z.leb_le in A. apply Z.ltb_lt in B. simpl. lia. }
  split; [intros previous; apply step|].
  destruct active as [|i]; simpl in W.
  - split.
    + unfold focusNextSuggestion at 2.
      destruct childElementCount as [|n]; [reflexivity|].
      replace (Z.leb 0 0 && Z.ltb 0 (Z.of_nat (S n))) with true
        by (symmetry; apply andb_true_iff; split;
            [apply Z.leb_le|apply Z.ltb_lt]; lia).
      reflexivity.
    + unfold focusNextSuggestion at 2.
      destruct childElementCount as [|n]; [reflexivity|].
      replace (Z.leb 0 (Z.of_nat (S n) - 1)
               && Z.ltb (Z.of_nat (S n) - 1) (Z.of_nat (S n))) with true
        by (symmetry; apply andb_true_iff; split;
            [apply Z.leb_le|apply Z.ltb_lt]; lia).
      unfold focusNextSuggestion.
      replace (Z.of_nat (Z.to_nat (Z.of_nat (S n) - 1)) + 1)%Z
        with (Z.of_nat (S n)) by lia.
      replace (Z.ltb (Z.of_nat (S n)) (Z.of_nat (S n))) with false
        by (symmetry; apply Z.ltb_ge; lia).
      now rewrite andb_false_r.
  - split.
    + unfold focusNextSuggestion at 2.
      destruct (Z.leb 0 (Z.of_nat i + 1)
                && Z.ltb (Z.of_nat i + 1) (Z.of_nat childElementCount)) eqn:E.
      * unfold focusNextSuggestion.
        replace (Z.of_nat (Z.to_nat (Z.of_nat i + 1)) - 1)%Z with (Z.of_nat i) by lia.
        replace (Z.leb 0 (Z.of_nat i) && Z.ltb (Z.of_nat i) (Z.of_nat childElementCount))
          with true
          by (symmetry; apply andb_true_iff; split;
              [apply Z.leb_le|apply Z.ltb_lt]; lia).
        now rewrite Nat2Z.id.
      * apply andb_false_iff in E. destruct E as [E|E];
          [apply Z.leb_gt in E; lia|].
        apply Z.ltb_ge in E. unfold focusNextSuggestion.
        replace (Z.of_nat childElementCount - 1)%Z with (Z.of_nat i) by lia.
        replace (Z.leb 0 (Z.of_nat i) && Z.ltb (Z.of_nat i) (Z.of_nat childElementCount))
          with true
          by (symmetry; apply andb_true_iff; split;
              [apply Z.leb_le|apply Z.ltb_lt]; lia).
        now rewrite Nat2Z.id.
    + unfold focusNextSuggestion at 2.
      destruct (Z.leb 0 (Z.of_nat i - 1)
                && Z.ltb (Z.of_nat i - 1) (Z.of_nat childElementCount)) eqn:E.
      * apply andb_true_iff in E. destruct E as [A B].
        apply Z.leb_le in A. unfold focusNextSuggestion.
        replace (Z.of_nat (Z.to_nat (Z.of_nat i - 1)) + 1)%Z with (Z.of_nat i) by lia.
        replace (Z.leb 0 (Z.of_nat i) && Z.ltb (Z.of_nat i) (Z.of_nat childElementCount))
          with true
          by (symmetry; apply andb_true_iff; split;
              [apply Z.leb_le|apply Z.ltb_lt]; lia).
        now rewrite Nat2Z.id.
      * apply andb_false_iff in E. destruct E as [E|E];
          [|apply Z.ltb_ge in E; lia].
        apply Z.leb_gt in E. assert (i = 0%nat) by lia. subst i.
        unfold focusNextSuggestion.
        replace (Z.leb 0 0 && Z.ltb 0 (Z.of_nat childElementCount)) with true
          by (symmetry; apply andb_true_iff; split;
              [apply Z.leb_le|apply Z.ltb_lt]; lia).
        reflexivity.
Qed.


Lemma focusNextSuggestion_next (childElementCount : nat) (active : focus) :
  focus_within childElementCount active ->
  position (focusNextSuggestion childElementCount false active)
  = Nat.modulo (position active + 1) (childElementCount + 1).
Proof.
  intros W. unfold focusNextSuggestion.
  destruct active as [|i]; cbn [position focus_within] in *.
  - destruct childElementCount as [|n]; [reflexivity|].
    replace (Z.leb 0 0 && Z.ltb 0 (Z.of_nat (S n))) with true
      by (symmetry; apply andb_true_iff; split;
          [apply Z.leb_le|apply Z.ltb_lt]; lia).
    cbn [position Z.to_nat]. symmetry. apply Nat.mod_small. lia.
  - destruct (Z.leb 0 (Z.of_nat i + 1)
              && Z.ltb (Z.of_nat i + 1) (Z.of_nat childElementCount)) eqn:E.
    + apply andb_true_iff in E. destruct E as [_ B]. apply Z.ltb_lt in B.
      cbn [position]. rewrite Nat.mod_small by lia. lia.
    + apply andb_false_iff in E. destruct E as [E|E];
        [apply Z.leb_gt in E; lia|].
      apply Z.ltb_ge in E. cbn [position].
      replace (S i + 1)%nat with (childElementCount + 1)%nat by lia.
      symmetry. apply Nat.Div0.mod_same.
Qed.

Lemma focusNextSuggestion_previous (childElementCount : nat) (active : focus) :
  focus_within childElementCount active ->
  position (focusNextSuggestion childElementCount true active)
  = Nat.modulo (position active + childElementCount) (childElementCount + 1).
Proof.
  intros W. unfold focusNextSuggestion.
  destruct active as [|i]; cbn [position focus_within] in *.
  - destruct childElementCount as [|n]; [reflexivity|].
    replace (Z.leb 0 (Z.of_nat (S n) - 1)
             && Z.ltb (Z.of_nat (S n) - 1) (Z.of_nat (S n))) with true
      by (symmetry; apply andb_true_iff; split;
          [apply Z.leb_le|apply Z.ltb_lt]; lia).
    cbn [position]. rewrite Nat.mod_small by lia. lia.
  - replace (S i + childElementCount)%nat
      with (i + 1 * (childElementCount + 1))%nat by lia.
    rewrite Nat.Div0.mod_add, Nat.mod_small by lia.
    destruct (Z.leb 0 (Z.of_nat i - 1)
              && Z.ltb (Z.of_nat i - 1) (Z.of_nat childElementCount)) eqn:E.
    + apply andb_true_iff in E. destruct E as [A _]. apply Z.leb_le in A.
      cbn [position]. lia.
    + apply andb_false_iff in E. destruct E as [E|E];
        [|apply Z.ltb_ge in E; lia].
      apply Z.leb_gt in E. cbn [position]. lia.
Qed.

(** X24. With the focus in the input or on one of the suggestions shown,
    [focusNextSuggestion] walks a cycle through the input and the
    suggestions in their order: counting the input as place 0 and the
    suggestion of index i as place i + 1, the next element is the one at the
    following place and the previous element the one at the place before,
    modulo the number of places. The focus stays in the dialog, and moving on
    and back again, or back and on again, brings it home. *)
Theorem focusNextSuggestion_cycle (childElementCount : nat) (active : focus) :
  focus_within childElementCount active ->
  position (focusNextSuggestion childElementCount false active)
  = Nat.modulo (position active + 1) (childElementCount + 1) /\
  position (focusNextSuggestion childElementCount true active)
  = Nat.modulo (position active + childElementCount) (childElementCount + 1) /\
  (forall previous,
     focus_within childElementCount
       (focusNextSuggestion childElementCount previous active)) /\
  focusNextSuggestion childElementCount true
    (focusNextSuggestion childElementCount false active) = active /\
  focusNextSuggestion childElementCount false
    (focusNextSuggestion childElementCount true active) = active.
Proof.
  intros W. split; [now apply focusNextSuggestion_next|].
  split; [now apply focusNextSuggestion_previous|].
  now apply focusNextSuggestion_back.
Qed.

Lemma focusNextSuggestion_cycle_witness :
  position (focusNextSuggestion 4 false (Suggestion 3)) = 0%nat /\
  focusNextSuggestion 4 true (focusNextSuggestion 4 false (Suggestion 3))
  = Suggestion 3.
Proof.
  assert (W : focus_within 4 (Suggestion 3)) by (simpl; lia).
  split.
  - exact (proj1 (focusNextSuggestion_cycle 4 (Suggestion 3) W)).
  - exact (proj1 (proj2 (proj2 (proj2 (focusNextSuggestion_cycle 4 (Suggestion 3) W))))).
Defined.

(** ** The commands component *)

Lemma is_word_ascii (c : char) : is_word c = true -> c < 128.
Proof. intros H. char_arith. Qed.

(** Settles the comparisons of a goal about character classes once the
    context tells where the character lies. *)
Ltac settle :=
  unfold lower_char, upper_word_char, is_word, is_letter, is_digit, is_upper,
    is_lower, between;
  repeat (match goal with
  | |- context [N.leb ?a ?b] =>
      first [ replace (N.leb a b) with true by (symmetry; apply N.leb_le; lia)
            | replace (N.leb a b) with false by (symmetry; apply N.leb_gt; lia) ]
  | |- context [N.eqb ?a ?b] =>
      first [ replace (N.eqb a b) with true by (symmetry; apply N.eqb_eq; lia)
            | replace (N.eqb a b) with false by (symmetry; apply N.eqb_neq; lia) ]
  end; cbn [andb orb negb]);
  try reflexivity; try lia.

Lemma is_word_cases (c : char) :
  is_word c = true -> 48 <= c <= 57 \/ 65 <= c <= 90 \/ c = 95 \/ 97 <= c <= 122.
Proof. intros H. char_arith. Qed.

Lemma lower_word_char (c : char) :
  is_word c = true ->
  is_word (lower_char c) = true /\ is_upper (lower_char c) = false /\
  lower_char (lower_char c) = lower_char c /\
  upper_word_char (lower_char c) = upper_word_char c.
Proof.
  intros H. apply is_word_cases in H.
  destruct H as [H|[H|[H|H]]]; repeat split; settle.
Qed.

Lemma upper_word_char_word (c : char) :
  is_word c = true ->
  is_word (upper_word_char c) = true /\
  upper_word_char (upper_word_char c) = upper_word_char c /\
  lower_char (upper_word_char c) = lower_char c.
Proof.
  intros H. apply is_word_cases in H.
  destruct H as [H|[H|[H|H]]]; repeat split; settle.
Qed.

Lemma lower_char_idempotent (c : char) : lower_char (lower_char c) = lower_char c.
Proof.
  assert (H : c < 65 \/ 65 <= c <= 90 \/ 90 < c < 192 \/
              (192 <= c <= 222 /\ c <> 215) \/ c = 215 \/ 222 < c) by lia.
  destruct H as [H|[H|[H|[H|[H|H]]]]]; settle.
Qed.

Lemma capitalise_again (inWord : bool) (str : jsstring) :
  capitalise inWord (capitalise inWord str) = capitalise inWord str.
Proof.
  revert inWord. induction str as [|c t IH]; intros inWord; [reflexivity|].
  cbn [capitalise]. destruct (is_word c) eqn:W.
  - destruct (lower_word_char c W) as (L1 & _ & L2 & _).
    destruct (upper_word_char_word c W) as (U1 & U2 & _).
    destruct inWord; cbn [capitalise].
    + now rewrite L1, L2, IH.
    + now rewrite U1, U2, IH.
  - cbn [capitalise]. now rewrite W, IH.
Qed.

Lemma capitalise_length (inWord : bool) (str : jsstring) :
  List.length (capitalise inWord str) = List.length str.
Proof.
  revert inWord. induction str as [|c t IH]; intros inWord; [reflexivity|].
  cbn [capitalise]. destruct (is_word c); cbn [List.length]; now rewrite IH.
Qed.

Lemma upper_is_word (c : char) : is_word c = false -> is_upper c = false.
Proof.
  unfold is_word, is_letter. destruct (is_upper c); [discriminate|reflexivity].
Qed.

Lemma lower_is_word (c : char) : is_word c = false -> is_lower c = false.
Proof.
  unfold is_word, is_letter. destruct (is_lower c); [|reflexivity].
  now rewrite orb_true_r.
Qed.

Lemma upper_word_char_not_lower (c : char) :
  is_word c = true -> is_lower (upper_word_char c) = false.
Proof.
  intros H. apply is_word_cases in H.
  destruct H as [H|[H|[H|H]]]; settle.
Qed.

Lemma capitalise_capitals_lead (inWord : bool) (str : jsstring) :
  capitals_lead inWord (capitalise inWord str) = true.
Proof.
  revert inWord. induction str as [|c t IH]; intros inWord; [reflexivity|].
  cbn [capitalise]. destruct (is_word c) eqn:W; cbn [capitals_lead].
  - destruct (lower_word_char c W) as (L1 & L0 & _).
    destruct (upper_word_char_word c W) as (U1 & _).
    destruct inWord; cbn [andb negb].
    + now rewrite L0, L1, IH.
    + now rewrite U1, IH.
  - now rewrite (upper_is_word c W), andb_false_r, W, IH.
Qed.

Lemma capitalise_words_capitalised (inWord : bool) (str : jsstring) :
  words_capitalised inWord (capitalise inWord str) = true.
Proof.
  revert inWord. induction str as [|c t IH]; intros inWord; [reflexivity|].
  cbn [capitalise]. destruct (is_word c) eqn:W; cbn [words_capitalised].
  - destruct (lower_word_char c W) as (L1 & _).
    destruct (upper_word_char_word c W) as (U1 & _).
    destruct inWord; cbn [andb negb].
    + now rewrite L1, IH.
    + now rewrite (upper_word_char_not_lower c W), U1, IH.
  - now rewrite (lower_is_word c W), andb_false_r, W, IH.
Qed.

Lemma capitalise_toLowerCase (inWord : bool) (str : jsstring) :
  toLowerCase (capitalise inWord str) = toLowerCase str.
Proof.
  unfold toLowerCase. revert inWord.
  induction str as [|c t IH]; intros inWord; [reflexivity|].
  cbn [capitalise]. destruct (is_word c) eqn:W; cbn [map]; rewrite IH; [|reflexivity].
  destruct (upper_word_char_word c W) as (_ & _ & U).
  destruct inWord; [now rewrite lower_char_idempotent|now rewrite U].
Qed.

(** X25. [capitaliseWords] changes the case of letters and nothing else:
    its result has the length of the name and the same lower-cased form. In
    the result no capital letter stands behind a word character and no small
    letter starts a word, so a name in full capitals cannot be displayed;
    and capitalising a second time changes nothing. *)
Theorem capitaliseWords_shape (str : jsstring) :
  List.length (capitaliseWords str) = List.length str /\
  toLowerCase (capitaliseWords str) = toLowerCase str /\
  capitals_lead false (capitaliseWords str) = true /\
  words_capitalised false (capitaliseWords str) = true /\
  capitaliseWords (capitaliseWords str) = capitaliseWords str.
Proof.
  unfold capitaliseWords. repeat split.
  - apply capitalise_length.
  - apply capitalise_toLowerCase.
  - apply capitalise_capitals_lead.
  - apply capitalise_words_capitalised.
  - apply capitalise_again.
Qed.

Lemma getColumns_cases (innerWidth commandCount : nat) :
  (getColumns innerWidth commandCount = 2 \/
   getColumns innerWidth commandCount = 4 /\ 900 <= innerWidth /\
   commandCount <> 5 /\ commandCount <> 2 /\ commandCount <> 1)%nat.
Proof.
  unfold getColumns.
  destruct (Nat.eqb_spec commandCount 5); [now left|].
  destruct (Nat.eqb_spec commandCount 2); [now left|].
  destruct (Nat.eqb_spec commandCount 1); [now left|].
  cbn [orb]. destruct (Nat.leb_spec 900 innerWidth); [right|left]; tauto.
Qed.

Lemma render_tiles_length (innerWidth : nat) (CONFIG : Config.t)
    (COMMANDS : Map Command.t) :
  List.length (fst (fst (render innerWidth CONFIG COMMANDS)))
  = List.length (available COMMANDS).
Proof. unfold render. cbn [fst]. apply length_map. Qed.

(** X26. The grid that [render] lays out has two or four columns, four only
    in a window at least 900 wide; the dynamic button is added exactly when
    the shortcuts do not fill the last row, and then it spans the cells that
    are left of that row, so that shortcuts and button together fill whole
    rows. *)
Theorem render_fills_rows (innerWidth : nat) (CONFIG : Config.t)
    (COMMANDS : Map Command.t) :
  let '(tiles, columns, button) := render innerWidth CONFIG COMMANDS in
  (columns = 2 \/ columns = 4 /\ 900 <= innerWidth)%nat /\
  match button with
  | None => Nat.modulo (List.length tiles) columns = 0%nat
  | Some cells =>
      (0 < cells < columns)%nat /\
      Nat.modulo (List.length tiles) columns <> 0%nat /\
      Nat.modulo (List.length tiles + cells) columns = 0%nat
  end.
Proof.
  unfold render. rewrite length_map.
  set (n := List.length (available COMMANDS)).
  unfold shouldAddButton.
  destruct (getColumns_cases innerWidth n) as [E|(E & W & _)]; rewrite E.
  - split; [now left|].
    destruct (Nat.eqb_spec (Nat.modulo n 2) 0) as [Z|Z]; cbn [negb]; [exact Z|].
    assert (B := Nat.mod_upper_bound n 2 ltac:(lia)).
    assert (D := Nat.div_mod_eq n 2).
    split; [lia|]. split; [exact Z|].
    replace (n + (2 - Nat.modulo n 2))%nat with ((Nat.div n 2 + 1) * 2)%nat by lia.
    apply Nat.Div0.mod_mul.
  - split; [right; now split|].
    destruct (Nat.eqb_spec (Nat.modulo n 4) 0) as [Z|Z]; cbn [negb]; [exact Z|].
    assert (B := Nat.mod_upper_bound n 4 ltac:(lia)).
    assert (D := Nat.div_mod_eq n 4).
    split; [lia|]. split; [exact Z|].
    replace (n + (4 - Nat.modulo n 4))%nat with ((Nat.div n 4 + 1) * 4)%nat by lia.
    apply Nat.Div0.mod_mul.
Qed.

Lemma Map_set_in {V} (m : Map V) (k : jsstring) (v : V) : In (k, v) (Map_set m k v).
Proof.
  induction m as [|[k' v'] m IH]; simpl; [now left|].
  destruct (jseqb k' k) eqn:E.
  - apply jseqb_eq in E. subst k'. now left.
  - now right.
Qed.

Lemma withProtocol_truthy (v : jsstring) : truthy (withProtocol v) = true.
Proof.
  unfold withProtocol.
  destruct (startsWith v (js "http://")) eqn:A; cbn [negb andb].
  - destruct v; [discriminate|reflexivity].
  - destruct (startsWith v (js "https://")) eqn:B; cbn [negb]; [|reflexivity].
    destruct v; [discriminate|reflexivity].
Qed.

Lemma render_tile (innerWidth : nat) (CONFIG : Config.t) (COMMANDS : Map Command.t)
    (tile : Tile.t) :
  In tile (fst (fst (render innerWidth CONFIG COMMANDS))) <->
  exists c, In (Tile.key tile, c) COMMANDS /\
            truthy (Command.name c) = true /\ truthy (Command.url c) = true /\
            tile = Tile.mk (Tile.key tile) (capitaliseWords (Command.name c))
                     (Command.url c) (Config.openLinksInNewTab CONFIG).
Proof.
  unfold render, available. cbn [fst]. rewrite in_map_iff. split.
  - intros ([k c] & E & H). apply filter_In in H. destruct H as [H T].
    cbn [fst snd] in *. apply andb_true_iff in T. subst tile. cbn [Tile.key].
    exists c. tauto.
  - intros (c & H & N & U & E). exists (Tile.key tile, c). cbn [fst snd].
    split; [now symmetry|]. apply filter_In. cbn [snd]. now rewrite N, U.
Qed.

(** X27. A shortcut that the add dialog creates is on the grid rendered
    next: under its key, with its name capitalised and its URL with a
    protocol; where no key had two commands before, it is the only shortcut
    shown under that key. *)
Theorem created_shortcut_is_rendered (innerWidth : nat) (k n v : jsstring)
    (answer : bool) (st : State.t) :
  fst (createNewShortcut k n v answer st) = true ->
  let st' := snd (createNewShortcut k n v answer st) in
  let tiles := fst (fst (render innerWidth (State.CONFIG st') (State.COMMANDS st'))) in
  let tile := Tile.mk k (capitaliseWords n) (withProtocol (trim v))
                (Config.openLinksInNewTab (State.CONFIG st)) in
  In tile tiles /\
  (NoDup (map fst (State.COMMANDS st)) ->
   forall other, In other tiles -> Tile.key other = k -> other = tile).
Proof.
  unfold createNewShortcut.
  destruct (truthy k && truthy n && truthy v) eqn:T; [|discriminate].
  destruct (Map_has (State.COMMANDS st) k && negb answer); [discriminate|].
  intros _. cbn [snd]. cbv zeta.
  unfold saveCommands, setStorage, setCommands. cbn [State.CONFIG State.COMMANDS].
  apply andb_true_iff in T. destruct T as [T Tv].
  apply andb_true_iff in T. destruct T as [Tk Tn].
  split.
  - apply render_tile. cbn [Tile.key].
    exists (Command.mk n (withProtocol (trim v)) None None None).
    cbn [Command.name Command.url].
    split; [apply Map_set_in|]. split; [exact Tn|].
    split; [apply withProtocol_truthy|reflexivity].
  - intros ND other H E. apply render_tile in H.
    destruct H as (c & H & _ & _ & F). rewrite E in H, F.
    apply Map_get_in in H; [|now apply Map_set_NoDup].
    rewrite Map_get_set_same in H. injection H as <-. exact F.
Qed.

Lemma created_shortcut_is_rendered_witness :
  In (Tile.mk (js "w") (js "Wiki Pages") (js "https://wiki.example") true)
     (fst (fst (render 1280
        (State.CONFIG (snd (createNewShortcut (js "w") (js "wiki PAGES")
           (js "wiki.example") false (pageLoad Storage.empty))))
        (State.COMMANDS (snd (createNewShortcut (js "w") (js "wiki PAGES")
           (js "wiki.example") false (pageLoad Storage.empty))))))).
Proof.
  exact (proj1 (created_shortcut_is_rendered 1280 (js "w") (js "wiki PAGES")
    (js "wiki.example") false (pageLoad Storage.empty) eq_refl)).
Defined.

Lemma Map_delete_in {V} (m : Map V) (k k' : jsstring) (v : V) :
  NoDup (map fst m) ->
  (In (k', v) (Map_delete m k) <-> In (k', v) m /\ k' <> k).
Proof.
  induction m as [|[k0 v0] m IH]; simpl; intros ND; [tauto|].
  inversion ND as [|? ? Hk ND']; subst.
  destruct (jseqb k0 k) eqn:E.
  - apply jseqb_eq in E. subst k0. split.
    + intros H. split; [now right|]. intros ->. apply Hk.
      change k with (fst (k, v)). now apply in_map.
    + intros [[H|H] N]; [|exact H]. injection H as -> ->. now contradiction N.
  - apply jseqb_neq in E. simpl. rewrite (IH ND'). split.
    + intros [H|H]; [|tauto]. injection H as -> ->. auto.
    + tauto.
Qed.

(** X28. Where no key has two commands, a shortcut deleted in the dialog is
    gone from the grid rendered next, and the shortcuts under the other keys
    are shown as before. *)
Theorem deleted_shortcut_is_not_rendered (innerWidth : nat) (key : jsstring)
    (st : State.t) (tile : Tile.t) :
  NoDup (map fst (State.COMMANDS st)) ->
  let st' := deleteShortcut key true st in
  In tile (fst (fst (render innerWidth (State.CONFIG st') (State.COMMANDS st')))) <->
  In tile (fst (fst (render innerWidth (State.CONFIG st) (State.COMMANDS st)))) /\
  Tile.key tile <> key.
Proof.
  intros ND. cbv zeta. unfold deleteShortcut, saveCommands, setStorage, setCommands.
  cbn [State.CONFIG State.COMMANDS]. rewrite !render_tile. split.
  - intros (c & H & R). apply (Map_delete_in _ _ _ _ ND) in H.
    destruct H as [H N]. split; [exists c; now split|exact N].
  - intros [(c & H & R) N]. exists c. split; [|exact R].
    apply (Map_delete_in _ _ _ _ ND). now split.
Qed.

Lemma deleted_shortcut_is_not_rendered_witness :
  ~ In (Tile.mk (js "g") (js "Gmail") (js "https://mail.google.com/mail/u/0/#inbox") true)
      (fst (fst (render 1280
         (State.CONFIG (deleteShortcut (js "g") true (pageLoad Storage.empty)))
         (State.COMMANDS (deleteShortcut (js "g") true (pageLoad Storage.empty)))))).
Proof.
  intros H.
  apply (deleted_shortcut_is_not_rendered 1280 (js "g") (pageLoad Storage.empty)) in H.
  - now destruct H as [_ N].
  - vm_compute. repeat constructor; simpl; intuition discriminate.
Defined.
